(** * Robot Framework library finder (tools/finder.py)

    A shallow embedding of [LibraryFinder] and [main] and the properties of
    the discovery walk.

    Layout of the model:
    - exceptions and the [result] monad;
    - [pathlib] paths as lists of parts, with [name], [suffix], [str] and
      the ordering [sorted] uses;
    - the file system as a finite tree;
    - text-mode reading ([encoding="utf-8"], [errors="ignore"]);
    - the two header patterns and [re.search];
    - the classification predicates and the [find] loop, in a state and
      exception monad;
    - [main]'s output step. *)

From stdpp Require Import gmap strings list sorting.
From Stdlib Require Import Strings.Ascii Strings.Byte NArith.

#[local] Open Scope string_scope.
#[local] Open Scope list_scope.
#[local] Set Warnings "-register-all,-clear-no-such-hyp".

(** ** Exceptions *)

Module Exn.

(** The exceptions the walk can meet.  [DataError] is Robot Framework's;
    the others are the built-in ones raised by [open] and [iterdir]. *)
Inductive exn :=
| DataError (msg : string)
| FileNotFoundError (filename : string)
| IsADirectoryError (filename : string)
| NotADirectoryError (filename : string)
| UnicodeDecodeError (position : nat).

Inductive result (A : Type) :=
| Ok (a : A)
| Raise (e : exn).
Arguments Ok {A} a.
Arguments Raise {A} e.

Definition is_DataError (e : exn) : bool :=
  match e with DataError _ => true | _ => false end.

#[export] Instance result_ret : MRet result := fun _ a => Ok a.
#[export] Instance result_bind : MBind result := fun _ _ f m =>
  match m with Ok a => f a | Raise e => Raise e end.
#[export] Instance result_fmap : FMap result := fun _ _ f m =>
  match m with Ok a => Ok (f a) | Raise e => Raise e end.

End Exn.
Import Exn.

(** ** Orderings

    Python compares sequences (strings, tuples of parts) by the first
    position where they differ; a proper prefix is smaller. *)

Section Lex.
Context {A : Type} (eqb ltb : A → A → bool).

Fixpoint lex_ltb (xs ys : list A) : bool :=
  match xs, ys with
  | _, [] => false
  | [], _ :: _ => true
  | x :: xs', y :: ys' => if eqb x y then lex_ltb xs' ys' else ltb x y
  end.
End Lex.

(** A [string] holds the UTF-8 bytes of a Python [str]; comparing bytes
    agrees with comparing code points. *)
Definition codes (s : string) : list N :=
  Ascii.N_of_ascii <$> String.list_ascii_of_string s.

Definition string_ltb (s t : string) : bool :=
  lex_ltb N.eqb N.ltb (codes s) (codes t).

(** ** Paths *)

(** A [PurePosixPath] is its tuple of parts; [Path(".")] has none.  The
    paths of the model are relative: they are resolved from the working
    directory. *)
Definition Path := list string.

Module PurePath.

(** [path / name] *)
Definition joinpath (p : Path) (child : string) : Path := p ++ [child].

(** [path.name] *)
Definition name (p : Path) : string := List.last p "".

(** [s.rfind(".")], [None] for -1 *)
Fixpoint rfind_dot (s : string) : option nat :=
  match s with
  | EmptyString => None
  | String a s' =>
      match rfind_dot s' with
      | Some i => Some (S i)
      | None => if Ascii.eqb a "."%char then Some 0 else None
      end
  end.

(** [path.suffix]: [i = name.rfind('.')], and [name[i:]] when
    [0 < i < len(name) - 1], otherwise the empty string. *)
Definition suffix (p : Path) : string :=
  let n := name p in
  match rfind_dot n with
  | Some i =>
      if bool_decide (0 < i < String.length n - 1)
      then String.substring i (String.length n - i) n
      else ""
  | None => ""
  end.

(** [str(path)] *)
Definition str (p : Path) : string :=
  match p with
  | [] => "."
  | _ => String.concat "/" p
  end.

(** [path < other]: the parts are compared as tuples of strings. *)
Definition ltb (p q : Path) : bool := lex_ltb String.eqb string_ltb p q.

(** The relation [sorted] orders by: [q] is not below [p]. *)
Definition le (p q : Path) : Prop := ltb q p = false.
Definition lt (p q : Path) : Prop := ltb p q = true.

#[export] Instance le_dec p q : Decision (le p q).
Proof. unfold le. apply _. Defined.

(** [sorted(paths)] for a set of paths *)
Definition sorted (paths : gset Path) : list Path :=
  merge_sort le (elements paths).

(** [other] lies strictly beneath [p] *)
Definition strictly_beneath (p other : Path) : Prop :=
  ∃ rest, rest ≠ [] ∧ other = p ++ rest.

(** [other] is [p] or lies beneath it *)
Definition beneath (p other : Path) : Prop := ∃ rest, other = p ++ rest.

End PurePath.
Import PurePath.

(** ** File system

    A snapshot of the working directory: regular files with their bytes,
    and directories with their entries.  There are no symbolic links. *)

Module FS.

Inductive node :=
| File (content : list byte)
| Dir (entries : list (string * node)).

Fixpoint lookup_entry (n : string) (es : list (string * node)) : option node :=
  match es with
  | [] => None
  | (m, nd) :: es' => if String.eqb n m then Some nd else lookup_entry n es'
  end.

(** The node a path names, starting from the working directory. *)
Fixpoint resolve (fs : node) (p : Path) : option node :=
  match p with
  | [] => Some fs
  | n :: p' =>
      match fs with
      | Dir es =>
          match lookup_entry n es with
          | Some nd => resolve nd p'
          | None => None
          end
      | File _ => None
      end
  end.

Definition is_dir (fs : node) (p : Path) : bool :=
  match resolve fs p with Some (Dir _) => true | _ => false end.

Definition is_file (fs : node) (p : Path) : bool :=
  match resolve fs p with Some (File _) => true | _ => false end.

(** Whether looking a path up stops at a regular file that has parts of
    the path still to come (the system's [ENOTDIR]) rather than at a name
    that is missing ([ENOENT]). *)
Fixpoint through_file (fs : node) (p : Path) : bool :=
  match p with
  | [] => false
  | n :: p' =>
      match fs with
      | Dir es =>
          match lookup_entry n es with
          | Some nd => through_file nd p'
          | None => false
          end
      | File _ => true
      end
  end.

(** The [OSError] for a path that names nothing. *)
Definition lookup_error (fs : node) (p : Path) : exn :=
  if through_file fs p then NotADirectoryError (str p)
  else FileNotFoundError (str p).

(** [path.iterdir()] *)
Definition iterdir (fs : node) (p : Path) : result (list Path) :=
  match resolve fs p with
  | Some (Dir es) => Ok (joinpath p <$> es.*1)
  | Some (File _) => Raise (NotADirectoryError (str p))
  | None => Raise (lookup_error fs p)
  end.

(** Relative paths of everything beneath a node. *)
Fixpoint walk (nd : node) : list Path :=
  match nd with
  | File _ => []
  | Dir es => flat_map (fun e => [e.1] :: (cons e.1 <$> walk e.2)) es
  end.

(** [path.glob("**/*")]: every file and directory beneath [path]. *)
Definition glob_all (fs : node) (p : Path) : list Path :=
  match resolve fs p with
  | Some nd => app p <$> walk nd
  | None => []
  end.

(** [open(path, "r")]: the bytes of a regular file. *)
Definition open_read (fs : node) (p : Path) : result (list byte) :=
  match resolve fs p with
  | Some (File content) => Ok content
  | Some (Dir _) => Raise (IsADirectoryError (str p))
  | None => Raise (lookup_error fs p)
  end.

(** An upper bound on the number of candidates a walk from a node can
    visit; it also covers directories that list a name twice. *)
Fixpoint weight (nd : node) : nat :=
  match nd with
  | File _ => 1
  | Dir es => S (length es * foldr (fun e m => Nat.max (weight e.2) m) 0 es)
  end.

Definition pweight (fs : node) (p : Path) : nat :=
  match resolve fs p with Some nd => weight nd | None => 1 end.

End FS.
Import FS.

(** ** Reading text

    [open(path, "r", encoding="utf-8", errors="ignore")] followed by
    [fd.read()]: the bytes are decoded as UTF-8 and line endings are
    translated (universal newlines). *)

Module Text.

#[local] Open Scope N_scope.

(** The [errors] argument of [open]. *)
Inductive errors_mode := Strict | Ignore.

(** What the decoder does with an invalid sequence starting at [pos]:
    a strict decoder raises, a permissive one drops the sequence and goes
    on with [continue]. *)
Definition on_invalid (errors : errors_mode) (pos : nat)
    (continue : result (list N)) : result (list N) :=
  match errors with
  | Strict => Raise (UnicodeDecodeError pos)
  | Ignore => continue
  end.

Definition is_continuation (ch : N) : bool := N.land ch 0xC0 =? 0x80.

(** CPython's UTF-8 decoder.  A text is a list of code points.  An invalid
    start byte covers one byte; an invalid continuation covers the bytes
    before it (one, two or three); a sequence cut by the end of the data
    covers all that is left. *)
Fixpoint utf8_decode (errors : errors_mode) (pos : nat) (s : list byte)
    : result (list N) :=
  match s with
  | [] => Ok []
  | b0 :: s1 =>
      let ch := Byte.to_N b0 in
      if ch <? 0x80 then cons ch <$> utf8_decode errors (pos + 1) s1
      else if ch <? 0xC2 then
      on_invalid errors pos (utf8_decode errors (pos + 1) s1)
      else if ch <? 0xE0 then
        match s1 with
        | [] => on_invalid errors pos (Ok [])
        | b1 :: s2 =>
            let ch2 := Byte.to_N b1 in
            if negb (is_continuation ch2)
          then on_invalid errors pos (utf8_decode errors (pos + 1) s1)
            else cons (N.lor (N.shiftl (N.land ch 0x1F) 6) (N.land ch2 0x3F))
                   <$> utf8_decode errors (pos + 2) s2
        end
      else if ch <? 0xF0 then
        match s1 with
        | [] => on_invalid errors pos (Ok [])
        | b1 :: s2 =>
            let ch2 := Byte.to_N b1 in
            if negb (is_continuation ch2)
               || (if ch2 <? 0xA0 then ch =? 0xE0 else ch =? 0xED)
            then on_invalid errors pos (utf8_decode errors (pos + 1) s1)
            else
              match s2 with
              | [] => on_invalid errors pos (Ok [])
              | b2 :: s3 =>
                  let ch3 := Byte.to_N b2 in
                  if negb (is_continuation ch3)
                  then on_invalid errors pos (utf8_decode errors (pos + 2) s2)
                  else cons (N.lor (N.shiftl (N.land ch 0x0F) 12)
                               (N.lor (N.shiftl (N.land ch2 0x3F) 6)
                                  (N.land ch3 0x3F)))
                         <$> utf8_decode errors (pos + 3) s3
              end
        end
      else if ch <? 0xF5 then
        match s1 with
        | [] => on_invalid errors pos (Ok [])
        | b1 :: s2 =>
            let ch2 := Byte.to_N b1 in
            if negb (is_continuation ch2)
               || (if ch2 <? 0x90 then ch =? 0xF0 else ch =? 0xF4)
            then on_invalid errors pos (utf8_decode errors (pos + 1) s1)
            else
              match s2 with
              | [] => on_invalid errors pos (Ok [])
              | b2 :: s3 =>
                  let ch3 := Byte.to_N b2 in
                  if negb (is_continuation ch3)
                  then on_invalid errors pos (utf8_decode errors (pos + 2) s2)
                  else
                    match s3 with
                    | [] => on_invalid errors pos (Ok [])
                    | b3 :: s4 =>
                        let ch4 := Byte.to_N b3 in
                        if negb (is_continuation ch4)
                        then on_invalid errors pos
                               (utf8_decode errors (pos + 3) s3)
                        else cons (N.lor (N.shiftl (N.land ch 0x07) 18)
                                     (N.lor (N.shiftl (N.land ch2 0x3F) 12)
                                        (N.lor (N.shiftl (N.land ch3 0x3F) 6)
                                           (N.land ch4 0x3F))))
                               <$> utf8_decode errors (pos + 4) s4
                    end
              end
        end
      else on_invalid errors pos (utf8_decode errors (pos + 1) s1)
  end.

(** Universal newlines: ["\r\n"] and a lone ["\r"] are read as ["\n"]. *)
Fixpoint translate_newlines (s : list N) : list N :=
  match s with
  | [] => []
  | c :: rest =>
      if c =? 13 then
        10 :: match rest with
              | [] => []
              | d :: rest' =>
                  if d =? 10 then translate_newlines rest'
                  else translate_newlines rest
              end
      else c :: translate_newlines rest
  end.

(** [fd.read()] on a file opened with the given [errors] mode. *)
Definition decode_text (errors : errors_mode) (content : list byte)
    : result (list N) :=
  translate_newlines <$> utf8_decode errors 0 content.

(** [with open(path, "r", encoding="utf-8", errors=...) as fd: fd.read()] *)
Definition read_text (errors : errors_mode) (fs : node) (p : Path)
    : result (list N) :=
  content ← open_read fs p; decode_text errors content.

End Text.
Import Text.

(** ** Regular expressions

    The part of [re] the two header patterns use: literals, character
    classes, sequence, alternation and repetition, searched with
    [re.MULTILINE | re.IGNORECASE]. *)

Module Re.

#[local] Open Scope N_scope.

Inductive regex :=
| Fail
| Eps
| Chr (f : N → bool)
| Cat (r1 r2 : regex)
| Alt (r1 r2 : regex)
| Star (r : regex).

Definition Plus (r : regex) : regex := Cat r (Star r).
Definition Opt (r : regex) : regex := Alt r Eps.

(** Simple lower-case mapping, on the code points whose image is an ASCII
    letter: A to Z, U+0130 and U+212A (KELVIN SIGN).  No other code point
    has an ASCII letter as its lower case, and the patterns compare with
    ASCII letters only. *)
Definition unicode_tolower (x : N) : N :=
  if (0x41 <=? x) && (x <=? 0x5A) then x + 32
  else if x =? 0x130 then 0x69
  else if x =? 0x212A then 0x6B
  else x.

Definition is_ascii_letter (c : N) : bool :=
  ((0x41 <=? c) && (c <=? 0x5A)) || ((0x61 <=? c) && (c <=? 0x7A)).

(** The case-insensitive equivalents that lower-casing alone misses
    ([sre_compile]'s table, for ASCII letters): dotless i and long s. *)
Definition fixes (lo : N) : list N :=
  if lo =? 0x69 then [0x131]
  else if lo =? 0x73 then [0x17F]
  else [].

(** A literal character of the pattern under [re.IGNORECASE]: an uncased
    character matches itself; a letter matches every character whose
    lower case is the letter's or one of its [fixes]. *)
Definition literal_ignorecase (c : N) : N → bool :=
  if is_ascii_letter c then
    let lo := unicode_tolower c in
    fun x => existsb (N.eqb (unicode_tolower x)) (lo :: fixes lo)
  else N.eqb c.

(** [\s] on a [str] pattern: the characters [str.isspace] accepts. *)
Definition unicode_space (x : N) : bool :=
  ((0x09 <=? x) && (x <=? 0x0D)) || ((0x1C <=? x) && (x <=? 0x20))
  || (x =? 0x85) || (x =? 0xA0) || (x =? 0x1680)
  || ((0x2000 <=? x) && (x <=? 0x200A))
  || (x =? 0x2028) || (x =? 0x2029) || (x =? 0x202F) || (x =? 0x205F)
  || (x =? 0x3000).

(** A literal string of the pattern. *)
Definition Lit (s : string) : regex :=
  foldr (fun c r => Cat (Chr (literal_ignorecase c)) r) Eps (codes s).

Fixpoint nullable (r : regex) : bool :=
  match r with
  | Fail => false
  | Eps => true
  | Chr _ => false
  | Cat r1 r2 => nullable r1 && nullable r2
  | Alt r1 r2 => nullable r1 || nullable r2
  | Star _ => true
  end.

(** Sequence and alternation that drop the parts that cannot match, so
    that what is left of a pattern stays small while a text is read. *)
Definition cat (r1 r2 : regex) : regex :=
  match r1, r2 with
  | Fail, _ => Fail
  | _, Fail => Fail
  | Eps, _ => r2
  | _, _ => Cat r1 r2
  end.

Definition alt (r1 r2 : regex) : regex :=
  match r1, r2 with
  | Fail, _ => r2
  | _, Fail => r1
  | _, _ => Alt r1 r2
  end.

(** What is left of [r] after reading [c]. *)
Fixpoint deriv (c : N) (r : regex) : regex :=
  match r with
  | Fail => Fail
  | Eps => Fail
  | Chr f => if f c then Eps else Fail
  | Cat r1 r2 =>
      if nullable r1 then alt (cat (deriv c r1) r2) (deriv c r2)
      else cat (deriv c r1) r2
  | Alt r1 r2 => alt (deriv c r1) (deriv c r2)
  | Star r1 => cat (deriv c r1) (Star r1)
  end.

(** Does [r] match at the start of [s]? *)
Fixpoint match_prefix (s : list N) (r : regex) : bool :=
  nullable r ||
  match s with
  | [] => false
  | c :: s' => match_prefix s' (deriv c r)
  end.

(** [re.search("^" + r, s, re.MULTILINE)]: the pattern is tried at the
    start of the text and right after every newline. *)
Fixpoint search_lines (at_line_start : bool) (r : regex) (s : list N) : bool :=
  (at_line_start && match_prefix s r) ||
  match s with
  | [] => false
  | c :: s' => search_lines (c =? 10) r s'
  end.

(** [^\*+\s*((?:User )?Keywords?)], without its leading [^] *)
Definition keywords_pattern : regex :=
  Cat (Plus (Chr (N.eqb 0x2A)))
    (Cat (Star (Chr unicode_space))
       (Cat (Opt (Lit "User ")) (Cat (Lit "Keyword") (Opt (Lit "s"))))).

(** [^\*+\s*(Test Cases?|Tasks?)], without its leading [^] *)
Definition tasks_pattern : regex :=
  Cat (Plus (Chr (N.eqb 0x2A)))
    (Cat (Star (Chr unicode_space))
       (Alt (Cat (Lit "Test Case") (Opt (Lit "s")))
            (Cat (Lit "Task") (Opt (Lit "s"))))).

End Re.
Import Re.

(** ** The finder *)

Definition BLACKLIST : list string := ["__pycache__"].
Definition INIT_FILES : list string := ["__init__.robot"; "__init__.txt"].
Definition EXTENSIONS : list string := [".robot"; ".resource"; ".txt"].

Inductive level := DEBUG | INFO.

(** What one call of [find] works on: the set [paths], the list [stack],
    and the records handed to the logger. *)
Record state := State {
  paths : gset Path;
  stack : list Path;
  log : list (level * string)
}.

(** Computations of the loop body: they change the state and may raise. *)
Definition M (A : Type) : Type := state → state * result A.

#[export] Instance M_ret : MRet M := fun _ a st => (st, Ok a).
#[export] Instance M_bind : MBind M := fun _ _ f m st =>
  match m st with
  | (st', Ok a) => f a st'
  | (st', Raise e) => (st', Raise e)
  end.

Definition lift {A} (r : result A) : M A := fun st => (st, r).

Definition logger_debug (msg : string) : M unit := fun st =>
  (State (paths st) (stack st) (log st ++ [(DEBUG, msg)]), Ok tt).

Definition logger_info (msg : string) : M unit := fun st =>
  (State (paths st) (stack st) (log st ++ [(INFO, msg)]), Ok tt).

(** [paths.add(path)] *)
Definition paths_add (p : Path) : M unit := fun st =>
  (State (paths st ∪ {[p]}) (stack st) (log st), Ok tt).

(** [paths |= {...}] *)
Definition paths_update (new : list Path) : M unit := fun st =>
  (State (paths st ∪ list_to_set new) (stack st) (log st), Ok tt).

(** [stack.append(child)] *)
Definition stack_append (child : Path) : M unit := fun st =>
  (State (paths st) (stack st ++ [child]) (log st), Ok tt).

(** [for x in l: body(x)] *)
Fixpoint for_each {A} (body : A → M unit) (l : list A) : M unit :=
  match l with
  | [] => mret tt
  | x :: l' => body x ;; for_each body l'
  end.

(** [try: body except DataError as err: handler(err)] *)
Definition try_except_DataError (body : M unit) (handler : string → M unit)
    : M unit := fun st =>
  match body st with
  | (st', Raise (DataError msg)) => handler msg st'
  | other => other
  end.

(** [[x for x in l if cond(x)]], the condition evaluated once per element *)
Fixpoint comprehension {A} (cond : A → result bool) (l : list A)
    : result (list A) :=
  match l with
  | [] => Ok []
  | x :: l' =>
      b ← cond x;
      rest ← comprehension cond l';
      Ok (if b : bool then x :: rest else rest)
  end.

(** [stack.pop(0)] *)
Definition pop_front (l : list Path) : option (Path * list Path) :=
  match l with
  | [] => None
  | p :: rest => Some (p, rest)
  end.

(** [stack.pop()] *)
Definition pop_back (l : list Path) : option (Path * list Path) :=
  match reverse l with
  | [] => None
  | p :: rest => Some (p, reverse rest)
  end.

(** A way to pop that takes some element off a non-empty stack. *)
Definition fair (pop : list Path → option (Path * list Path)) : Prop :=
  ∀ l, match pop l with
       | None => l = []
       | Some (p, rest) => l ≡ₚ p :: rest
       end.

Module LibraryFinder.
Section Finder.

(** The directory the process runs in. *)
Variable fs : node.

(** [LibraryDocumentation(name).keywords]: Robot Framework's
  introspection of a library or resource, which may raise. *)
Variable LibraryDocumentation : string → result (list string).

(** [self.ignore] *)
Variable ignore : list Path.

Definition should_ignore (path : Path) : bool :=
bool_decide (path ∈ ignore) || bool_decide (name path ∈ BLACKLIST).

Definition has_keywords (path : Path) : result bool :=
keywords ← LibraryDocumentation (str path);
Ok (negb (bool_decide (keywords = []))).

Definition is_module_library (path : Path) : result bool :=
if is_file fs (joinpath path "__init__.py") then has_keywords path
else Ok false.

Definition is_library_file (path : Path) : result bool :=
if String.eqb (suffix path) ".py" then
  if negb (String.eqb (name path) "__init__.py") then has_keywords path
  else Ok false
else Ok false.

(** [bool(re.search(pattern, data, re.MULTILINE | re.IGNORECASE))], for a
  pattern that starts with [^] *)
Definition contains (data : list N) (pattern : regex) : bool :=
search_lines true pattern data.

Definition is_resource_file (path : Path) : result bool :=
if bool_decide (name path ∈ INIT_FILES)
   || negb (bool_decide (suffix path ∈ EXTENSIONS))
then Ok false
else
  data ← read_text Ignore fs path;
  let has_keywords := contains data keywords_pattern in
  let has_tasks := contains data tasks_pattern in
  Ok (negb has_tasks && has_keywords).

Definition is_keyword_file (path : Path) : result bool :=
b ← is_library_file path;
if b : bool then Ok true else is_resource_file path.

(** The body of the [try] statement for one popped [path]. *)
Definition try_body (path : Path) : M unit :=
if should_ignore path then
  logger_debug ("Ignoring: " +:+ str path)
else if is_dir fs path then
  is_library ← lift (is_module_library path);
  if is_library : bool then
    paths_add path;;
    files ← lift (comprehension (fun file => is_resource_file path)
                    (glob_all fs path));
    paths_update files
  else
    children ← lift (iterdir fs path);
    for_each stack_append children
else
  is_keyword ← lift (is_keyword_file path);
  if is_keyword : bool then paths_add path else mret tt.

(** One turn of the [while] loop, after [path] was popped. *)
Definition iteration (path : Path) : M unit :=
logger_debug ("Checking: " +:+ str path);;
try_except_DataError (try_body path)
  (fun err => logger_info ("Parsing failed: " +:+ err)).

(** The [while stack:] loop, for a given way to pop.  [None] when the
  fuel runs out. *)
Fixpoint find_loop (pop : list Path → option (Path * list Path))
  (fuel : nat) (st : state) : option (state * result unit) :=
match pop (stack st) with
| None => Some (st, Ok tt)
| Some (path, rest) =>
    match fuel with
    | 0 => None
    | S fuel' =>
        match iteration path (State (paths st) rest (log st)) with
        | (st', Ok _) => find_loop pop fuel' st'
        | (st', Raise e) => Some (st', Raise e)
        end
    end
end.

(** Turns that are enough for the loop to empty the stack: the sum of
  the bounds of the candidates on it. *)
Definition walk_bound (root : list Path) : nat :=
sum_list_with (pweight fs) root.

(** The whole of [find] up to its [return]: the final state, and the
  exception that ended the loop if one did. *)
Definition run (pop : list Path → option (Path * list Path))
  (root : list Path) : option (state * result unit) :=
find_loop pop (walk_bound root) (State ∅ root []).

Definition find_with (pop : list Path → option (Path * list Path))
  (root : list Path) : option (result (list string)) :=
match run pop root with
| Some (st, Ok _) => Some (Ok (str <$> sorted (paths st)))
| Some (_, Raise e) => Some (Raise e)
| None => None
end.

(** [LibraryFinder.find] *)
Definition find (root : list Path) : option (result (list string)) :=
find_with pop_front root.

(** The walk of the specification's alternative: a stack popped from
  the back (depth first). *)
Definition find_depth_first (root : list Path)
  : option (result (list string)) :=
find_with pop_back root.

End Finder.
End LibraryFinder.
Import LibraryFinder.

(** ** The command line *)

Module Cli.

(** The parsed arguments. *)
Record args := Args {
  args_paths : list Path;
  args_output : option Path;
  args_ignore : list Path;
  args_verbose : bool
}.

(** What a run does to the outside: text sent to standard output, and a
    file opened with mode ["w"] and written. *)
Inductive event :=
| Stdout (text : string)
| FileWrite (filename content : string).

Section Main.

Variable fs : node.
Variable LibraryDocumentation : string → result (list string).

(** [json.dumps(libraries, indent=2)] *)
Variable dumps : list string → string.

(** The logging format, time stamp included. *)
Variable format : level → string → string.

(** [logging.basicConfig(stream=sys.stdout, level=log_level, ...)]:
    the records at or above the level reach standard output. *)
Definition enabled (log_level lvl : level) : bool :=
  match log_level, lvl with
  | INFO, DEBUG => false
  | _, _ => true
  end.

Definition emitted (log_level : level) (records : list (level * string))
    : list event :=
  (fun r => Stdout (format r.1 r.2))
    <$> filter (fun r => enabled log_level r.1 = true) records.

(** [main]: the events of the run, and the exception that ended it if
    one did.  A [Path] is always true as a condition, so the file
    branch is taken exactly when [--output] was given. *)
Definition main (a : args) : option (list event * option exn) :=
  let log_level := if args_verbose a then DEBUG else INFO in
  match run fs LibraryDocumentation (args_ignore a) pop_front
          (args_paths a) with
  | None => None
  | Some (st, Raise e) => Some (emitted log_level (log st), Some e)
  | Some (st, Ok _) =>
      let libraries := str <$> sorted (paths st) in
      let output := dumps libraries in
      Some (emitted log_level (log st) ++
            match args_output a with
            | Some _ => [FileWrite output output]
            | None => [Stdout output]
            end, None)
  end.

End Main.
End Cli.

(** ** What one candidate contributes

    A summary of [try_body] that leaves the state out: the paths it
    records and the paths it puts on the stack. *)

(** The union of two sets of recorded paths, when both walks end
    normally. *)
Definition both (a b : option (gset Path)) : option (gset Path) :=
  x ← a; y ← b; Some (x ∪ y).
Arguments both : simpl never.

Section Visit.

Variable fs : node.
Variable LibraryDocumentation : string → result (list string).
Variable ignore : list Path.

Definition visit (path : Path) : result (list Path * list Path) :=
  if should_ignore ignore path then Ok ([], [])
  else if is_dir fs path then
    is_library ← is_module_library fs LibraryDocumentation path;
    if is_library : bool then
      files ← comprehension (fun file => is_resource_file fs path)
                (glob_all fs path);
      Ok (path :: files, [])
    else
      children ← iterdir fs path;
      Ok ([], children)
  else
    is_keyword ← is_keyword_file fs LibraryDocumentation path;
    Ok (if is_keyword : bool then [path] else [], []).

(** The records one turn of the loop hands to the logger when it ends
    normally. *)
Definition visit_log (path : Path) : list (level * string) :=
  (DEBUG, "Checking: " +:+ str path)
  :: (if should_ignore ignore path
      then [(DEBUG, "Ignoring: " +:+ str path)] else []).

(** Everything a walk started at [path] records, whatever the order of
    the walk; [None] when some candidate raises an exception the loop
    does not catch.  [depth] bounds the nesting. *)
Fixpoint reach (depth : nat) (path : Path) : option (gset Path) :=
  match depth with
  | 0 => None
  | S depth' =>
      match visit path with
      | Ok (recorded, children) =>
          foldr (fun child acc => both (reach depth' child) acc)
            (Some (list_to_set recorded)) children
      | Raise (DataError _) => Some ∅
      | Raise _ => None
      end
  end.

Definition reach_all (depth : nat) (l : list Path) : option (gset Path) :=
  foldr (fun p acc => both (reach depth p) acc) (Some ∅) l.

(** The candidate is neither ignored nor skipped before
    [LibraryDocumentation] is called on it: a directory with an
    [__init__.py], or a [.py] file that is not an [__init__.py]. *)
Definition introspected (path : Path) : bool :=
  negb (should_ignore ignore path) &&
  (if is_dir fs path then is_file fs (joinpath path "__init__.py")
   else String.eqb (suffix path) ".py"
        && negb (String.eqb (name path) "__init__.py")).

End Visit.

(** ** Well-formed names

    [pathlib] drops empty parts and ["."] when it parses a path, and the
    separator never is inside a part; directory entries have such names
    too. *)

Definition valid_part (s : string) : bool :=
  negb (String.eqb s "") && negb (String.eqb s ".")
  && forallb (fun c => negb (Ascii.eqb c "/"%char))
       (String.list_ascii_of_string s).

Definition valid_path (p : Path) : bool := forallb valid_part p.

Fixpoint valid_tree (nd : node) : bool :=
  match nd with
  | File _ => true
  | Dir es => forallb (fun e => valid_part e.1 && valid_tree e.2) es
  end.

Definition no_slash (s : string) : Prop :=
  forallb (fun c => negb (Ascii.eqb c "/"%char))
    (String.list_ascii_of_string s) = true.

(** What follows a part in [str(path)]: nothing, or a separator. *)
Definition slash_or_end (x : string) : Prop :=
  x = "" ∨ ∃ x', x = String "/"%char x'.

(** ** Section headers, as the specification words them *)

Module Header.

(** The language of a pattern. *)
Inductive Matches : regex → list N → Prop :=
| MEps : Matches Eps []
| MChr f c : f c = true → Matches (Chr f) [c]
| MCat r1 r2 s1 s2 :
    Matches r1 s1 → Matches r2 s2 → Matches (Cat r1 r2) (s1 ++ s2)
| MAltL r1 r2 s : Matches r1 s → Matches (Alt r1 r2) s
| MAltR r1 r2 s : Matches r2 s → Matches (Alt r1 r2) s
| MStar0 r : Matches (Star r) []
| MStarS r c s1 s2 :
    Matches r (c :: s1) → Matches (Star r) s2 →
    Matches (Star r) (c :: s1 ++ s2).

(** A position where a line starts: the start of the text, or right
    after a newline. *)
Definition line_start (before : list N) : Prop :=
  before = [] ∨ ∃ before', before = before' ++ [10%N].

(** [t] spells [title], case ignored. *)
Definition spells (title : string) (t : list N) : Prop :=
  Forall2 (fun c x => literal_ignorecase c x = true) (codes title) t.

(** A header: one or more asterisks, optional white space, a title. *)
Definition is_header (titles : list string) (h : list N) : Prop :=
  ∃ stars spaces t title,
    h = stars ++ spaces ++ t ∧ stars ≠ [] ∧
    Forall (fun x => x = 0x2A%N) stars ∧
    Forall (fun x => unicode_space x = true) spaces ∧
    title ∈ titles ∧ spells title t.

(** The text has a header with one of the titles at the start of a
    line. *)
Definition has_header (titles : list string) (data : list N) : Prop :=
  ∃ before h after,
    data = before ++ h ++ after ∧ line_start before ∧ is_header titles h.

Definition KEYWORD_TITLES : list string :=
  ["Keyword"; "Keywords"; "User Keyword"; "User Keywords"].

Definition TASK_TITLES : list string :=
  ["Test Case"; "Test Cases"; "Task"; "Tasks"].

End Header.
Import Header.

(** ** Concrete trees used by the examples *)

Module Examples.

Definition bytes_of (s : string) : list byte := String.list_byte_of_string s.

(** The text of a resource file: a keywords section and nothing else. *)
Definition keywords_source : string := "*** Keywords ***
Say Hello
    Log    Hello
".


Definition keywords_robot : node := File (bytes_of keywords_source).


(** A file that is not text: no byte of it starts a valid sequence,
    except the asterisk. *)
Definition blob : list byte := [xff; xfe; x80; x2a; xc0].

Definition fs_blob : node := Dir [("blob.txt", File blob)].

(** An empty working directory. *)
Definition fs_empty : node := Dir [].

(** Introspection that finds a keyword in the directory [lib] and
    nothing elsewhere. *)
Definition doc_lib (target : string) : result (list string) :=
  if String.eqb target "lib" then Ok ["Say Hello"] else Ok [].

(** A module library with a resource file in it. *)
Definition fs_library : node :=
  Dir [("lib", Dir [("__init__.py", File []);
                    ("res.robot", keywords_robot)])].

(** A directory and a file whose names differ by a suffix. *)
Definition fs_order : node :=
  Dir [("r", Dir [("a", Dir [("b.robot", keywords_robot)]);
                  ("a.robot", keywords_robot)])].

(** Introspection that finds nothing. *)
Definition doc_none (target : string) : result (list string) := Ok [].

(** Introspection that fails on the directory [lib]. *)
Definition doc_broken (target : string) : result (list string) :=
  if String.eqb target "lib" then Raise (DataError "Importing failed")
  else Ok [].

End Examples.

(** ** What the walk accepts and where it goes *)

Section Characterisation.

Variable fs : node.
Variable LibraryDocumentation : string → result (list string).
Variable ignore : list Path.

(** A directory the walk goes into: not ignored and not a module
    library. *)
Definition expanded (x : Path) : Prop :=
  should_ignore ignore x = false ∧
  is_dir fs x = true ∧
  is_module_library fs LibraryDocumentation x = Ok false.

(** A candidate that [find] records: not ignored, and a module library
    when it is a directory, a keyword file otherwise. *)
Definition accepted (q : Path) : Prop :=
  should_ignore ignore q = false ∧
  if is_dir fs q
  then is_module_library fs LibraryDocumentation q = Ok true
  else is_keyword_file fs LibraryDocumentation q = Ok true.

(** The walk from the root [r] comes to [q]: [q] is [r] or exists
    beneath it, and every directory on the way down was gone into. *)
Definition walked_to (r q : Path) : Prop :=
  beneath r q ∧
  (q = r ∨ is_Some (resolve fs q)) ∧
  ∀ x, beneath r x → strictly_beneath x q → expanded x.

End Characterisation.

(** ** The candidates of a walk *)

(** Two lists of candidates put together, when both walks end
    normally. *)
Definition both_lists (a b : option (list Path)) : option (list Path) :=
  x ← a; y ← b; Some (x ++ y).
Arguments both_lists : simpl never.

Definition gather (f : Path → option (list Path)) (l : list Path)
    : option (list Path) :=
  foldr (fun p acc => both_lists (f p) acc) (Some []) l.

Section Tour.

Variable fs : node.
Variable LibraryDocumentation : string → result (list string).
Variable ignore : list Path.

(** The candidates that a walk started at [path] pops off the stack,
    each as many times as it is popped: [path] itself, and when its turn
    puts children on the stack, the candidates of the walks from them.
    [None] when some turn raises an exception the loop does not catch.
    [depth] bounds the nesting. *)
Fixpoint tour (depth : nat) (path : Path) : option (list Path) :=
  match depth with
  | 0 => None
  | S depth' =>
      match visit fs LibraryDocumentation ignore path with
      | Ok (_, children) =>
          both_lists (Some [path]) (gather (tour depth') children)
      | Raise (DataError _) => Some [path]
      | Raise _ => None
      end
  end.

Definition tour_all (depth : nat) (l : list Path) : option (list Path) :=
  gather (tour depth) l.

(** The message of the [DataError] that the turn of the loop on [path]
    catches, if it catches one. *)
Definition failure (path : Path) : option string :=
  match visit fs LibraryDocumentation ignore path with
  | Raise (DataError msg) => Some msg
  | _ => None
  end.

(** The records that the turn of the loop on [path] hands to the logger
    when the loop goes on after it. *)
Definition turn_records (path : Path) : list (level * string) :=
  match failure path with
  | Some msg => [(DEBUG, "Checking: " +:+ str path);
                 (INFO, "Parsing failed: " +:+ msg)]
  | None => visit_log ignore path
  end.

End Tour.

(** ** More concrete trees *)

Module MoreExamples.

(** Introspection that finds a keyword everywhere. *)
Definition doc_all (target : string) : result (list string) :=
  Ok ["Say Hello"].

(** A package whose directory is named like a text file. *)
Definition fs_package_txt : node :=
  Dir [("lib.txt", Dir [("__init__.py", File [])])].

(** A directory with an initialiser resource, a note and a script. *)
Definition fs_mixed : node :=
  Dir [("__init__.robot", Examples.keywords_robot);
       ("notes.md", Examples.keywords_robot);
       ("res.robot", Examples.keywords_robot);
       ("tool.py", File [])].

(** A resource file whose sections are indented. *)
Definition fs_indented : node :=
  Dir [("res.robot", File (Examples.bytes_of "  *** Keywords ***
  Say Hello
"))].

(** Two bytes that are not UTF-8, and a keywords section after them. *)
Definition blob_with_header : list byte :=
  [xff; xfe] ++ Examples.bytes_of Examples.keywords_source.

Definition fs_blob_header : node :=
  Dir [("blob.txt", File blob_with_header)].


(** Two scripts, and a package beside them. *)
Definition fs_scripts : node :=
  Dir [("one.py", File []);
       ("pkg", Dir [("__init__.py", File []); ("two.py", File [])]);
       ("three.py", File [])].

(** Introspection that fails on every script and finds nothing in a
    package. *)
Definition doc_scripts (target : string) : result (list string) :=
  if String.eqb target "pkg" then Ok []
  else Raise (DataError ("no " +:+ target)).

End MoreExamples.

(** * Properties *)

(** ** Permissive decoding *)

Lemma utf8_decode_ignore_bounded n :
  ∀ s pos, (length s ≤ n)%nat → ∃ t, utf8_decode Ignore pos s = Ok t.
Proof.
  induction n as [|n IH]; intros s pos Hlen.
  - destruct s; [by eexists|simpl in Hlen; lia].
  - assert (Hfm : ∀ (f : list N → list N) s' pos',
               (length s' ≤ n)%nat →
               ∃ t, f <$> utf8_decode Ignore pos' s' = Ok t).
    { intros f s' pos' Hs'. destruct (IH s' pos' Hs') as [t ->]. by eexists. }
    destruct s as [|b0 s1]; [by eexists|].
    simpl in Hlen. simpl.
    repeat (first
      [ match goal with
        | |- ∃ t, Ok _ = Ok t => by eexists
        | |- ∃ t, on_invalid Ignore _ _ = Ok t => unfold on_invalid
        | |- ∃ t, utf8_decode Ignore _ _ = Ok t => apply IH; simpl in *; lia
        | |- ∃ t, _ <$> utf8_decode Ignore _ _ = Ok t =>
            apply Hfm; simpl in *; lia
        | |- context [match ?l with [] => _ | _ :: _ => _ end] =>
            is_var l; destruct l; simpl in Hlen
        | |- context [if ?b then _ else _] => destruct b
        end ]).
Qed.

Lemma utf8_decode_ignore_total s pos : ∃ t, utf8_decode Ignore pos s = Ok t.
Proof. by apply (utf8_decode_ignore_bounded (length s)). Qed.

Lemma decode_text_ignore_total content :
  ∃ data, decode_text Ignore content = Ok data.
Proof.
  unfold decode_text.
  destruct (utf8_decode_ignore_total content 0) as [t ->]. by eexists.
Qed.

(** ** The loop body and its summary *)

Section Body.

Variable fs : node.
Variable LibraryDocumentation : string → result (list string).
Variable ignore : list Path.

#[local] Abbreviation visit' := (visit fs LibraryDocumentation ignore).
#[local] Abbreviation visit_log' := (visit_log ignore).
#[local] Abbreviation try_body' :=
  (try_body fs LibraryDocumentation ignore).
#[local] Abbreviation iteration' :=
  (iteration fs LibraryDocumentation ignore).

Lemma read_text_ignore_not_DataError path msg :
  read_text Ignore fs path ≠ Raise (DataError msg).
Proof.
  unfold read_text, open_read, lookup_error.
  destruct (resolve fs path) as [[content|es]|]; simpl; try done.
  - destruct (decode_text_ignore_total content) as [data ->]. done.
  - by destruct (through_file fs path).
Qed.

Lemma is_resource_file_not_DataError path msg :
  is_resource_file fs path ≠ Raise (DataError msg).
Proof.
  unfold is_resource_file. case_match; [done|].
  pose proof (read_text_ignore_not_DataError path msg) as Hrd.
  destruct (read_text Ignore fs path) as [data|e]; simpl; congruence.
Qed.

Lemma comprehension_const {A} (r : result bool) (l : list A) :
  comprehension (fun _ => r) l =
    match l, r with
    | [], _ => Ok []
    | _ :: _, Ok true => Ok l
    | _ :: _, Ok false => Ok []
    | _ :: _, Raise e => Raise e
    end.
Proof.
  induction l as [|x l IH]; [done|]. simpl. rewrite IH.
  destruct r as [[]|e]; simpl; destruct l; done.
Qed.

Lemma for_each_stack_append children st :
  for_each stack_append children st =
    (State (paths st) (stack st ++ children) (log st), Ok tt).
Proof.
  revert st. induction children as [|c cs IH]; intros [P S L]; simpl.
  - by rewrite app_nil_r.
  - unfold mbind, M_bind. simpl. rewrite IH. simpl.
    by rewrite <- app_assoc.
Qed.

(** [try_body] does what [visit] says. *)
Lemma try_body_visit path st :
  match visit' path with
  | Ok (recorded, children) =>
      try_body' path st =
        (State (paths st ∪ list_to_set recorded) (stack st ++ children)
           (log st ++ tail (visit_log' path)), Ok tt)
  | Raise e =>
      (try_body' path st).2 = Raise e ∧
      (is_DataError e = true → (try_body' path st).1 = st)
  end.
Proof.
  destruct st as [P S L].
  unfold visit, visit_log, try_body.
  destruct (should_ignore ignore path); simpl.
  { unfold logger_debug. simpl. f_equal. f_equal; [set_solver|].
    by rewrite app_nil_r. }
  destruct (is_dir fs path).
  - unfold mbind at 1, M_bind at 1, lift at 1.
    destruct (is_module_library fs LibraryDocumentation path)
      as [[]|e]; simpl; [| |done].
    + unfold mbind, M_bind, paths_add, lift, paths_update. simpl.
      pose proof (is_resource_file_not_DataError path) as Hne.
      destruct (comprehension _ (glob_all fs path)) as [files|e] eqn:Hc;
        simpl.
      * f_equal. rewrite !app_nil_r. f_equal. set_solver.
      * split; [done|]. intros He. destruct e; try done.
        rewrite comprehension_const in Hc.
        destruct (glob_all fs path); [done|].
        destruct (is_resource_file fs path) as [[]|e'];
          simplify_eq. by destruct (Hne msg).
    + unfold mbind, M_bind, lift.
      destruct (iterdir fs path) as [children|e]; simpl; [|done].
      rewrite for_each_stack_append. simpl.
      f_equal. f_equal; [set_solver|by rewrite app_nil_r].
  - unfold mbind, M_bind, lift.
    destruct (is_keyword_file fs LibraryDocumentation path)
      as [[]|e]; simpl; [| |done].
    + unfold paths_add. simpl. f_equal.
      rewrite !app_nil_r. f_equal. set_solver.
    + unfold mret, M_ret. rewrite !app_nil_r. f_equal. f_equal. set_solver.
Qed.

(** One turn of the loop, read off [visit]. *)
Lemma iteration_visit path st :
  match visit' path with
  | Ok (recorded, children) =>
      iteration' path st =
        (State (paths st ∪ list_to_set recorded) (stack st ++ children)
           (log st ++ visit_log' path), Ok tt)
  | Raise (DataError msg) =>
      iteration' path st =
        (State (paths st) (stack st)
           (log st ++ [(DEBUG, "Checking: " +:+ str path);
                       (INFO, "Parsing failed: " +:+ msg)]), Ok tt)
  | Raise e => (iteration' path st).2 = Raise e
  end.
Proof.
  pose proof (try_body_visit path
    (State (paths st) (stack st)
       (log st ++ [(DEBUG, "Checking: " +:+ str path)]))) as Hb.
  unfold iteration, mbind, M_bind, logger_debug,
    try_except_DataError. simpl.
  destruct (visit' path) as [[recorded children]|e].
  - rewrite Hb. simpl. unfold visit_log.
    by rewrite <- app_assoc.
  - destruct Hb as [Hr Hst].
    destruct (try_body' path _) as [st' r]. simpl in *. subst r.
    destruct e; try done.
    rewrite (Hst eq_refl). unfold logger_info. simpl.
    by rewrite <- app_assoc.
Qed.

End Body.

(** ** The tree and the bound on the walk *)

Lemma resolve_app fs p q :
  resolve fs (p ++ q) = resolve fs p ≫= fun nd => resolve nd q.
Proof.
  revert fs. induction p as [|n p IH]; intros fs; simpl; [done|].
  destruct fs as [content|es]; [done|].
  destruct (lookup_entry n es); [apply IH|done].
Qed.

Lemma lookup_entry_Some n es nd :
  lookup_entry n es = Some nd → nd ∈ es.*2.
Proof.
  induction es as [|[m nd'] es IH]; simpl; [done|].
  destruct (String.eqb n m); [intros [= ->]; set_solver|].
  intros H. apply IH in H. set_solver.
Qed.

Lemma lookup_entry_listed n es :
  n ∈ es.*1 → is_Some (lookup_entry n es).
Proof.
  induction es as [|[m nd'] es IH]; simpl; [set_solver|].
  intros Hin. destruct (String.eqb n m) eqn:E; [by eexists|].
  apply String.eqb_neq in E. apply IH. set_solver.
Qed.

Lemma weight_pos nd : (1 ≤ weight nd)%nat.
Proof. destruct nd; simpl; lia. Qed.

Lemma pweight_pos fs p : (1 ≤ pweight fs p)%nat.
Proof.
  unfold pweight. destruct (resolve fs p); [apply weight_pos|lia].
Qed.

Lemma weight_le_max nd (es : list (string * node)) :
  nd ∈ es.*2 →
  (weight nd ≤ foldr (fun e m => Nat.max (weight e.2) m) 0 es)%nat.
Proof.
  induction es as [|[m nd'] es IH]; simpl; [set_solver|].
  intros [->|Hin]%elem_of_cons; [lia|]. apply IH in Hin. lia.
Qed.

Lemma walk_bound_app fs l1 l2 :
  walk_bound fs (l1 ++ l2) = (walk_bound fs l1 + walk_bound fs l2)%nat.
Proof. apply sum_list_with_app. Qed.

Lemma walk_bound_cons fs p l :
  walk_bound fs (p :: l) = (pweight fs p + walk_bound fs l)%nat.
Proof. done. Qed.

Lemma walk_bound_perm fs l1 l2 :
  l1 ≡ₚ l2 → walk_bound fs l1 = walk_bound fs l2.
Proof. intros H. unfold walk_bound. by rewrite H. Qed.

Lemma children_walk_bound fs p es :
  resolve fs p = Some (Dir es) →
  (walk_bound fs (joinpath p <$> es.*1) < pweight fs p)%nat.
Proof.
  intros Hp. unfold pweight. rewrite Hp. simpl.
  set (M := foldr (fun e m => Nat.max (weight e.2) m) 0 es).
  assert (Hall : ∀ names, names ⊆ es.*1 →
            (walk_bound fs (joinpath p <$> names) ≤ length names * M)%nat).
  { induction names as [|n names IH]; intros Hsub;
      [simpl; lia|].
    rewrite fmap_cons, walk_bound_cons. cbn [length].
    rewrite Nat.mul_succ_l.
    assert (Hn : n ∈ es.*1) by set_solver.
    destruct (lookup_entry_listed _ _ Hn) as [nd Hnd].
    assert (pweight fs (joinpath p n) ≤ M)%nat.
    { unfold pweight, joinpath. rewrite resolve_app, Hp. simpl. rewrite Hnd.
      apply weight_le_max. by eapply lookup_entry_Some. }
    assert (names ⊆ es.*1) by set_solver.
    specialize (IH H0). lia. }
  specialize (Hall (es.*1) (reflexivity _)).
  rewrite length_fmap in Hall. lia.
Qed.

(** ** Union of walks *)

Lemma both_comm a b : both a b = both b a.
Proof.
  destruct a, b; unfold both; simpl; try done. f_equal. set_solver.
Qed.

Lemma both_assoc a b c : both a (both b c) = both (both a b) c.
Proof.
  destruct a, b, c; unfold both; simpl; try done. f_equal. set_solver.
Qed.

Lemma both_empty_l a : both (Some ∅) a = a.
Proof. destruct a; unfold both; simpl; [f_equal; set_solver|done]. Qed.

Lemma both_empty_r a : both a (Some ∅) = a.
Proof. by rewrite both_comm, both_empty_l. Qed.

Lemma both_None_r a : both a None = None.
Proof. by destruct a. Qed.

Lemma both_None_l a : both None a = None.
Proof. done. Qed.

Lemma both_Some a b : both (Some a) (Some b) = Some (a ∪ b).
Proof. done. Qed.

Section Walk.

Variable fs : node.
Variable LibraryDocumentation : string → result (list string).
Variable ignore : list Path.

#[local] Abbreviation visit' := (visit fs LibraryDocumentation ignore).
#[local] Abbreviation reach' := (reach fs LibraryDocumentation ignore).
#[local] Abbreviation reach_all' :=
  (reach_all fs LibraryDocumentation ignore).
#[local] Abbreviation find_loop' :=
  (find_loop fs LibraryDocumentation ignore).
#[local] Abbreviation iteration' :=
  (iteration fs LibraryDocumentation ignore).

Lemma visit_children_bound path recorded children :
  visit' path = Ok (recorded, children) →
  (walk_bound fs children < pweight fs path)%nat.
Proof.
  pose proof (pweight_pos fs path) as Hpos.
  assert (Hnil : (walk_bound fs [] < pweight fs path)%nat) by (simpl; lia).
  unfold visit. destruct (should_ignore ignore path).
  { by intros [= <- <-]. }
  destruct (is_dir fs path).
  - destruct (is_module_library _ _ _) as [[]|e]; simpl; [| |done].
    + destruct (comprehension _ _); simpl; [|done]. by intros [= <- <-].
    + unfold iterdir. destruct (resolve fs path) as [[|es]|] eqn:Hp;
        simpl; try done.
      intros [= <- <-]. by apply children_walk_bound.
  - destruct (is_keyword_file _ _ _); simpl; [|done]. by intros [= <- <-].
Qed.

Lemma reach_all_cons depth p l :
  reach_all' depth (p :: l) = both (reach' depth p) (reach_all' depth l).
Proof. done. Qed.

Lemma reach_all_app depth l1 l2 :
  reach_all' depth (l1 ++ l2) =
    both (reach_all' depth l1) (reach_all' depth l2).
Proof.
  induction l1 as [|p l1 IH]; simpl; [by rewrite both_empty_l|].
  by rewrite IH, both_assoc.
Qed.

Lemma reach_all_perm depth l1 l2 :
  l1 ≡ₚ l2 → reach_all' depth l1 = reach_all' depth l2.
Proof.
  induction 1 as [|x l1 l2 _ IH|x y l|l1 l2 l3 _ IH1 _ IH2]; simpl.
  - done.
  - by rewrite IH.
  - rewrite !both_assoc. by rewrite (both_comm (reach' depth y)).
  - congruence.
Qed.

Lemma reach_step depth path :
  reach' (S depth) path =
    match visit' path with
    | Ok (recorded, children) =>
        both (Some (list_to_set recorded)) (reach_all' depth children)
    | Raise (DataError _) => Some ∅
    | Raise _ => None
    end.
Proof.
  simpl. destruct (visit' path) as [[recorded children]|e]; [|done].
  induction children as [|c cs IH]; simpl.
  - by rewrite both_empty_r.
  - rewrite IH. rewrite !both_assoc. f_equal. apply both_comm.
Qed.

(** More depth than the bound of a candidate does not change what the
    walk from it reaches. *)
Lemma reach_stable n :
  ∀ m path, (pweight fs path ≤ n)%nat → (pweight fs path ≤ m)%nat →
            reach' n path = reach' m path.
Proof.
  induction n as [|n IH]; intros m path Hn Hm.
  { pose proof (pweight_pos fs path). lia. }
  destruct m as [|m]; [pose proof (pweight_pos fs path); lia|].
  rewrite !reach_step.
  destruct (visit' path) as [[recorded children]|e] eqn:Hv; [|done].
  apply visit_children_bound in Hv. f_equal.
  assert (Hall : ∀ l, (walk_bound fs l < pweight fs path)%nat →
            reach_all' n l = reach_all' m l).
  { induction l as [|c l IHl]; [done|]. rewrite walk_bound_cons. intros Hl.
    simpl. rewrite IHl by lia. f_equal. apply IH; lia. }
  by apply Hall.
Qed.

Lemma reach_all_stable n m l :
  (walk_bound fs l ≤ n)%nat → (walk_bound fs l ≤ m)%nat →
  reach_all' n l = reach_all' m l.
Proof.
  induction l as [|c l IHl]; [done|]. rewrite walk_bound_cons. intros Hn Hm.
  simpl. rewrite IHl by lia. f_equal. apply reach_stable; lia.
Qed.

Lemma pop_front_fair : fair pop_front.
Proof. intros [|p l]; simpl; [done|reflexivity]. Qed.

Lemma pop_back_fair : fair pop_back.
Proof.
  intros l. unfold pop_back.
  destruct (reverse l) as [|p rest] eqn:E.
  - apply (f_equal reverse) in E. by rewrite reverse_involutive in E.
  - apply (f_equal reverse) in E. rewrite reverse_involutive in E.
    rewrite E, reverse_cons. by rewrite Permutation_app_comm.
Qed.

(** The loop ends within [measure] turns, and what it records is what
    [reach_all] says, however it pops. *)
Lemma find_loop_reach pop (Hpop : fair pop) n :
  ∀ fuel st, (walk_bound fs (stack st) ≤ n)%nat → (n ≤ fuel)%nat →
    ∃ st' r, find_loop' pop fuel st = Some (st', r) ∧
      match reach_all' n (stack st) with
      | Some recorded => r = Ok tt ∧ paths st' = paths st ∪ recorded
      | None => ∃ e, r = Raise e
      end.
Proof.
  induction n as [|n IH]; intros fuel st Hm Hfuel.
  - assert (stack st = []) as Hnil.
    { destruct (stack st) as [|p l]; [done|].
      rewrite walk_bound_cons in Hm. pose proof (pweight_pos fs p). lia. }
    exists st, (Ok tt). rewrite Hnil. split.
    + destruct fuel; simpl; rewrite Hnil; pose proof (Hpop []) as Hp;
        destruct (pop []) as [[p rest]|]; try done;
        by apply Permutation_nil_cons in Hp.
    + simpl. split; [done|set_solver].
  - pose proof (Hpop (stack st)) as Hp.
    destruct (pop (stack st)) as [[p rest]|] eqn:Epop.
    2:{ exists st, (Ok tt). rewrite Hp. split.
        - destruct fuel; simpl; by rewrite Epop.
        - simpl. split; [done|set_solver]. }
    rewrite (reach_all_perm _ _ _ Hp), reach_all_cons, reach_step.
    rewrite (walk_bound_perm _ _ _ Hp), walk_bound_cons in Hm.
    pose proof (pweight_pos fs p) as Hpos.
    destruct fuel as [|fuel]; [lia|].
    cbn [find_loop]. rewrite Epop.
    pose proof (iteration_visit fs LibraryDocumentation ignore p
                  (State (paths st) rest (log st))) as Hit.
    destruct (visit' p) as [[recorded children]|e] eqn:Hv.
    + rewrite Hit. simpl.
      pose proof (visit_children_bound _ _ _ Hv) as Hkids.
      destruct (IH fuel (State (paths st ∪ list_to_set recorded)
                           (rest ++ children)
                           (log st ++ visit_log ignore p)))
        as (st' & r & Hloop & Hres).
      { simpl. rewrite walk_bound_app. lia. }
      { lia. }
      exists st', r. split; [done|]. simpl in Hres.
      rewrite reach_all_app in Hres.
      rewrite (reach_all_stable (S n) n rest) by lia.
      rewrite <- both_assoc, (both_comm (reach_all' n children)).
      destruct (reach_all' n rest) as [R1|];
        [|by rewrite ?both_None_l, ?both_None_r in *].
      destruct (reach_all' n children) as [R2|];
        [|by rewrite ?both_None_l, ?both_None_r in *].
      rewrite !both_Some in *.
      destruct Hres as [-> ->]. split; [done|set_solver].
    + destruct e.
      * rewrite Hit. simpl.
        destruct (IH fuel (State (paths st) rest
                    (log st ++ [(DEBUG, "Checking: " +:+ str p);
                                (INFO, "Parsing failed: " +:+ msg)])))
          as (st' & r & Hloop & Hres); [simpl; lia|lia|].
        exists st', r. split; [done|]. simpl in Hres.
        rewrite both_empty_l.
        by rewrite (reach_all_stable (S n) n rest) by lia.
      * destruct (iteration' p _) as [st1 r1]. simpl in Hit. subst r1.
        eexists _, _. split; [done|]. simpl. by eexists.
      * destruct (iteration' p _) as [st1 r1]. simpl in Hit. subst r1.
        eexists _, _. split; [done|]. simpl. by eexists.
      * destruct (iteration' p _) as [st1 r1]. simpl in Hit. subst r1.
        eexists _, _. split; [done|]. simpl. by eexists.
      * destruct (iteration' p _) as [st1 r1]. simpl in Hit. subst r1.
        eexists _, _. split; [done|]. simpl. by eexists.
Qed.

End Walk.

(** ** What a run returns *)

Section Run.

Variable fs : node.
Variable LibraryDocumentation : string → result (list string).
Variable ignore : list Path.

#[local] Abbreviation visit' := (visit fs LibraryDocumentation ignore).
#[local] Abbreviation reach' := (reach fs LibraryDocumentation ignore).
#[local] Abbreviation reach_all' :=
  (reach_all fs LibraryDocumentation ignore).
#[local] Abbreviation run' := (run fs LibraryDocumentation ignore).
#[local] Abbreviation find_with' :=
  (find_with fs LibraryDocumentation ignore).

Lemma run_reach pop root :
  fair pop →
  ∃ st r, run' pop root = Some (st, r) ∧
    match reach_all' (walk_bound fs root) root with
    | Some recorded => r = Ok tt ∧ paths st = recorded
    | None => ∃ e, r = Raise e
    end.
Proof.
  intros Hpop. unfold run.
  destruct (find_loop_reach fs LibraryDocumentation ignore pop Hpop
              (walk_bound fs root) (walk_bound fs root) (State ∅ root []))
    as (st & r & Hloop & Hres); [done|done|].
  exists st, r. split; [done|]. simpl in Hres.
  destruct (reach_all' _ root); [|done].
  destruct Hres as [-> ->]. split; [done|set_solver].
Qed.

Lemma find_with_reach pop root :
  fair pop →
  match reach_all' (walk_bound fs root) root with
  | Some recorded =>
      find_with' pop root = Some (Ok (str <$> sorted recorded))
  | None => ∃ e, find_with' pop root = Some (Raise e)
  end.
Proof.
  intros Hpop. unfold find_with.
  destruct (run_reach pop root Hpop) as (st & r & -> & Hres).
  destruct (reach_all' _ root).
  - by destruct Hres as [-> ->].
  - destruct Hres as [e ->]. by exists e.
Qed.

(** [find] always comes to an end. *)
Lemma find_terminates root :
  ∃ r, find fs LibraryDocumentation ignore root = Some r.
Proof.
  pose proof (find_with_reach pop_front root
                pop_front_fair) as H.
  unfold find. destruct (reach_all' _ root); [by eexists|].
  destruct H as [e ->]. by eexists.
Qed.

(** *** What a recorded path went through *)

Lemma is_resource_file_dir path :
  is_dir fs path = true → is_resource_file fs path ≠ Ok true.
Proof.
  unfold is_dir, is_resource_file, read_text, open_read.
  destruct (resolve fs path) as [[content|es]|]; try done.
  intros _. by case_match.
Qed.

(** A candidate records itself or nothing; in particular the branch of
    a module library records the directory alone. *)
Lemma visit_recorded path recorded children :
  visit' path = Ok (recorded, children) →
  recorded = [] ∨ (recorded = [path] ∧ should_ignore ignore path = false).
Proof.
  unfold visit. destruct (should_ignore ignore path).
  { intros [= <- <-]. by left. }
  destruct (is_dir fs path) eqn:Hdir.
  - destruct (is_module_library _ _ _) as [[]|e]; simpl; [| |done].
    + rewrite comprehension_const.
      pose proof (is_resource_file_dir path Hdir) as Hres.
      destruct (glob_all fs path); simpl.
      { intros [= <- <-]. by right. }
      destruct (is_resource_file fs path) as [[]|e]; simpl; try done.
      intros [= <- <-]. by right.
    + destruct (iterdir fs path); simpl; [|done].
      intros [= <- <-]. by left.
  - destruct (is_keyword_file _ _ _) as [[]|e]; simpl; [| |done];
      intros [= <- <-]; [by right|by left].
Qed.

(** Only a directory that is neither ignored nor a module library puts
    candidates on the stack: its entries, all of them. *)
Lemma visit_children path recorded children :
  visit' path = Ok (recorded, children) →
  children = [] ∨
  (should_ignore ignore path = false ∧
   is_module_library fs LibraryDocumentation path = Ok false ∧
   recorded = [] ∧
   ∃ es, resolve fs path = Some (Dir es) ∧
         children = joinpath path <$> es.*1).
Proof.
  unfold visit. destruct (should_ignore ignore path).
  { intros [= <- <-]. by left. }
  destruct (is_dir fs path) eqn:Hdir.
  - destruct (is_module_library _ _ _) as [[]|e]; simpl; [| |done].
    + destruct (comprehension _ _); simpl; [|done].
      intros [= <- <-]. by left.
    + unfold iterdir.
      destruct (resolve fs path) as [[content|es]|] eqn:Hp; simpl;
        try done.
      intros [= <- <-]. right. repeat split; try done. by exists es.
  - destruct (is_keyword_file _ _ _) as [[]|e]; simpl; [| |done];
      intros [= <- <-]; by left.
Qed.

Lemma reach_all_elem depth l recorded q :
  reach_all' depth l = Some recorded → q ∈ recorded →
  ∃ p found, p ∈ l ∧ reach' depth p = Some found ∧ q ∈ found.
Proof.
  revert recorded. induction l as [|p l IH]; intros recorded.
  { intros [= <-]. set_solver. }
  rewrite reach_all_cons.
  destruct (reach' depth p) as [R1|] eqn:E1; [|done].
  destruct (reach_all' depth l) as [R2|]; [|done].
  rewrite both_Some. intros [= <-] [Hq|Hq]%elem_of_union.
  - exists p, R1. set_solver.
  - destruct (IH R2 eq_refl Hq) as (p' & found & ? & ? & ?).
    exists p', found. set_solver.
Qed.

Lemma beneath_refl p : beneath p p.
Proof. exists []. by rewrite app_nil_r. Qed.

Lemma beneath_child p n q : beneath (joinpath p n) q → beneath p q.
Proof.
  intros [rest ->]. exists (n :: rest). unfold joinpath.
  by rewrite <- app_assoc.
Qed.

(** Between a directory and something beneath one of its entries there
    is the directory itself, and then what is beneath the entry. *)
Lemma beneath_between p n x q :
  beneath p x → beneath x q → beneath (joinpath p n) q →
  x = p ∨ beneath (joinpath p n) x.
Proof.
  intros [r1 ->] [r2 ->] [r3 H]. unfold joinpath in *.
  destruct r1 as [|a r1]; [left; by rewrite app_nil_r|right].
  rewrite <- !app_assoc in H. apply app_inv_head in H.
  simpl in H. injection H as -> _.
  exists r1. by rewrite <- app_assoc.
Qed.

(** Every path a walk records was accepted as a candidate, lies at or
    beneath the start of the walk, was reached through candidates that
    were not ignored, and exists unless it is the start itself. *)
Lemma reach_elem depth :
  ∀ p recorded q,
    reach' depth p = Some recorded → q ∈ recorded →
    (∃ children, visit' q = Ok ([q], children)) ∧
    beneath p q ∧
    (∀ x, beneath p x → beneath x q → should_ignore ignore x = false) ∧
    (q = p ∨ is_Some (resolve fs q)).
Proof.
  induction depth as [|depth IH]; intros p recorded q; [done|].
  rewrite reach_step.
  destruct (visit' p) as [[rec children]|e] eqn:Hv.
  2:{ destruct e; try done. intros [= <-]. set_solver. }
  destruct (reach_all' depth children) as [R|] eqn:HR; [|done].
  rewrite both_Some. intros [= <-] [Hq|Hq]%elem_of_union.
  - destruct (visit_recorded _ _ _ Hv) as [->|[-> Hig]];
      [set_solver|].
    assert (q = p) as -> by set_solver.
    split; [by eexists|]. split; [apply beneath_refl|].
    split; [|by left].
    intros x [r1 ->] [r2 H].
    rewrite <- app_assoc in H.
    rewrite <- (app_nil_r p) in H at 1. apply app_inv_head in H.
    symmetry in H. apply app_eq_nil in H as [-> _].
    by rewrite app_nil_r.
  - destruct (reach_all_elem _ _ _ _ HR Hq) as (k & found & Hk & Hf & Hqf).
    destruct (IH _ _ _ Hf Hqf) as (Hacc & Hbe & Htrail & Hex).
    destruct (visit_children _ _ _ Hv) as [->|(Hig & _ & _ & es & Hp & ->)];
      [set_solver|].
    apply list_elem_of_fmap in Hk as (n & -> & Hn).
    split; [done|]. split; [by eapply beneath_child|]. split.
    + intros x Hpx Hxq.
      destruct (beneath_between _ _ _ _ Hpx Hxq Hbe) as [->|Hkx];
        [done|by apply Htrail].
    + right. destruct Hex as [->|Hex]; [|done].
      unfold joinpath. rewrite resolve_app, Hp. simpl.
      destruct (lookup_entry_listed _ _ Hn) as [nd ->]. by eexists.
Qed.

End Run.

(** ** The ordering of paths *)

Section LexFacts.

Context {A : Type} (eqb ltb : A → A → bool).
Hypothesis eqb_eq : ∀ x y, eqb x y = true ↔ x = y.
Hypothesis ltb_irrefl : ∀ x, ltb x x = false.
Hypothesis ltb_trans :
  ∀ x y z, ltb x y = true → ltb y z = true → ltb x z = true.
Hypothesis ltb_total : ∀ x y, ltb x y = true ∨ x = y ∨ ltb y x = true.

Lemma eqb_refl' x : eqb x x = true.
Proof. by apply eqb_eq. Qed.

Lemma lex_ltb_irrefl xs : lex_ltb eqb ltb xs xs = false.
Proof.
  induction xs as [|x xs IH]; [done|]. simpl. by rewrite eqb_refl'.
Qed.

Lemma lex_ltb_trans xs :
  ∀ ys zs, lex_ltb eqb ltb xs ys = true → lex_ltb eqb ltb ys zs = true →
           lex_ltb eqb ltb xs zs = true.
Proof.
  induction xs as [|x xs IH]; intros [|y ys] [|z zs]; simpl; try done.
  destruct (eqb x y) eqn:Exy, (eqb y z) eqn:Eyz, (eqb x z) eqn:Exz;
    rewrite ?eqb_eq in *; subst; intros H1 H2;
    try (by eapply IH); try done.
  - rewrite eqb_refl' in Exz. done.
  - rewrite eqb_refl' in Eyz. done.
  - rewrite eqb_refl' in Exy. done.
  - pose proof (ltb_trans _ _ _ H1 H2) as H. by rewrite ltb_irrefl in H.
  - by eapply ltb_trans.
Qed.

Lemma lex_ltb_total xs :
  ∀ ys, lex_ltb eqb ltb xs ys = true ∨ xs = ys
        ∨ lex_ltb eqb ltb ys xs = true.
Proof.
  induction xs as [|x xs IH]; intros [|y ys]; simpl; auto.
  destruct (eqb x y) eqn:Exy.
  - apply eqb_eq in Exy as ->. rewrite eqb_refl'.
    destruct (IH ys) as [?|[->|?]]; auto.
  - destruct (eqb y x) eqn:Eyx.
    { apply eqb_eq in Eyx as ->. by rewrite eqb_refl' in Exy. }
    destruct (ltb_total x y) as [?|[->|?]]; auto.
    by rewrite eqb_refl' in Exy.
Qed.

End LexFacts.

Lemma codes_inj s t : codes s = codes t → s = t.
Proof.
  unfold codes. intros H.
  rewrite <- (String.string_of_list_ascii_of_string s),
    <- (String.string_of_list_ascii_of_string t).
  f_equal. revert H.
  generalize (String.list_ascii_of_string s) (String.list_ascii_of_string t).
  induction l as [|a l IH]; intros [|b l']; simpl; try done.
  intros [= Hab Hl]. f_equal; [|by apply IH].
  rewrite <- (Ascii.ascii_N_embedding a), <- (Ascii.ascii_N_embedding b).
  by rewrite Hab.
Qed.

Lemma N_ltb_total (x y : N) :
  N.ltb x y = true ∨ x = y ∨ N.ltb y x = true.
Proof. rewrite !N.ltb_lt. lia. Qed.

Lemma N_ltb_trans (x y z : N) :
  N.ltb x y = true → N.ltb y z = true → N.ltb x z = true.
Proof. rewrite !N.ltb_lt. lia. Qed.

Lemma string_ltb_irrefl s : string_ltb s s = false.
Proof. apply lex_ltb_irrefl. apply N.eqb_eq. Qed.

Lemma string_ltb_trans s t u :
  string_ltb s t = true → string_ltb t u = true → string_ltb s u = true.
Proof.
  apply lex_ltb_trans.
  - apply N.eqb_eq.
  - apply N.ltb_irrefl.
  - apply N_ltb_trans.
Qed.

Lemma string_ltb_total s t :
  string_ltb s t = true ∨ s = t ∨ string_ltb t s = true.
Proof.
  destruct (lex_ltb_total N.eqb N.ltb N.eqb_eq N_ltb_total (codes s) (codes t))
    as [?|[?%codes_inj|?]]; auto.
Qed.

Lemma path_ltb_irrefl p : PurePath.ltb p p = false.
Proof. apply lex_ltb_irrefl. apply String.eqb_eq. Qed.

Lemma path_ltb_trans p q r :
  PurePath.ltb p q = true → PurePath.ltb q r = true →
  PurePath.ltb p r = true.
Proof.
  apply lex_ltb_trans.
  - apply String.eqb_eq.
  - apply string_ltb_irrefl.
  - apply string_ltb_trans.
Qed.

Lemma path_ltb_total p q :
  PurePath.ltb p q = true ∨ p = q ∨ PurePath.ltb q p = true.
Proof. apply lex_ltb_total; [apply String.eqb_eq|apply string_ltb_total]. Qed.

#[local] Instance path_le_total : Total PurePath.le.
Proof.
  intros p q. unfold PurePath.le.
  destruct (PurePath.ltb q p) eqn:E1; [|by left].
  destruct (PurePath.ltb p q) eqn:E2; [|by right].
  pose proof (path_ltb_trans _ _ _ E1 E2) as H.
  by rewrite path_ltb_irrefl in H.
Qed.

#[local] Instance path_le_trans : Transitive PurePath.le.
Proof.
  intros p q r. unfold PurePath.le. intros Hqp Hrq.
  destruct (PurePath.ltb r p) eqn:E; [|done].
  destruct (path_ltb_total p q) as [H|[->|H]]; [|congruence..].
  pose proof (path_ltb_trans _ _ _ E H). congruence.
Qed.

Lemma sorted_elem (S : gset Path) q : q ∈ sorted S ↔ q ∈ S.
Proof.
  unfold sorted. rewrite merge_sort_Permutation. apply elem_of_elements.
Qed.

Lemma sorted_NoDup (S : gset Path) : NoDup (sorted S).
Proof.
  unfold sorted. rewrite merge_sort_Permutation. apply NoDup_elements.
Qed.

Lemma StronglySorted_le_lt (l : list Path) :
  StronglySorted PurePath.le l → NoDup l → StronglySorted PurePath.lt l.
Proof.
  induction 1 as [|p l Hl IH Hall]; intros Hnd; constructor.
  - apply IH. by apply NoDup_cons in Hnd as [_ ?].
  - apply NoDup_cons in Hnd as [Hp _].
    rewrite Forall_forall in *. intros q Hq.
    specialize (Hall q Hq). unfold PurePath.le, PurePath.lt in *.
    destruct (path_ltb_total p q) as [?|[->|?]]; [done| |congruence].
    by destruct Hp.
Qed.

(** [sorted] puts the paths of a set in strictly ascending order. *)
Lemma sorted_ascending (S : gset Path) : StronglySorted PurePath.lt (sorted S).
Proof.
  apply StronglySorted_le_lt; [|apply sorted_NoDup].
  unfold sorted. apply StronglySorted_merge_sort; apply _.
Qed.

(** ** Paths and their strings *)

Lemma append_nil_l (x : string) : "" +:+ x = x.
Proof. done. Qed.

Lemma append_cons c (a x : string) : String c a +:+ x = String c (a +:+ x).
Proof. done. Qed.

Lemma append_nil_r (a : string) : a +:+ "" = a.
Proof. induction a as [|c a IH]; [done|]. by rewrite append_cons, IH. Qed.

Lemma no_slash_split a :
  ∀ b x y, no_slash a → no_slash b → slash_or_end x → slash_or_end y →
           a +:+ x = b +:+ y → a = b ∧ x = y.
Proof.
  unfold no_slash.
  induction a as [|c a IH]; intros [|d b] x y Ha Hb Hx Hy; simpl in Ha, Hb;
    rewrite ?append_nil_l, ?append_cons.
  - done.
  - intros ->. destruct Hx as [?|[x' [= -> _]]]; [done|].
    rewrite Ascii.eqb_refl in Hb. done.
  - intros <-. destruct Hy as [?|[y' [= -> _]]]; [done|].
    rewrite Ascii.eqb_refl in Ha. done.
  - intros [= -> H].
    apply andb_true_iff in Ha as [_ Ha], Hb as [_ Hb].
    destruct (IH b x y Ha Hb Hx Hy H) as [-> ->]. done.
Qed.

Lemma valid_part_no_slash s : valid_part s = true → no_slash s.
Proof. unfold valid_part. by intros [_ ?]%andb_true_iff. Qed.

Lemma concat_cons2 sep a b l :
  String.concat sep (a :: b :: l) = a +:+ sep +:+ String.concat sep (b :: l).
Proof. done. Qed.

Lemma concat_slash_inj p :
  ∀ q, valid_path p = true → valid_path q = true → p ≠ [] → q ≠ [] →
       String.concat "/" p = String.concat "/" q → p = q.
Proof.
  induction p as [|a p IH]; intros [|b q] Hp Hq Hp0 Hq0; try done.
  simpl in Hp, Hq.
  apply andb_true_iff in Hp as [Ha Hp], Hq as [Hb Hq].
  apply valid_part_no_slash in Ha, Hb.
  destruct p as [|a2 p], q as [|b2 q].
  - by intros [= ->].
  - rewrite concat_cons2. change (String.concat "/" [a]) with a.
    intros H. rewrite <- (append_nil_r a) in H.
    by destruct (no_slash_split a b "" _ Ha Hb (or_introl eq_refl)
                   (or_intror (ex_intro _ _ eq_refl)) H) as [_ ?].
  - rewrite concat_cons2. change (String.concat "/" [b]) with b.
    intros H. rewrite <- (append_nil_r b) in H.
    by destruct (no_slash_split a b _ "" Ha Hb
                   (or_intror (ex_intro _ _ eq_refl))
                   (or_introl eq_refl) H) as [_ ?].
  - rewrite !concat_cons2. intros H.
    destruct (no_slash_split a b _ _ Ha Hb
                (or_intror (ex_intro _ _ eq_refl))
                (or_intror (ex_intro _ _ eq_refl)) H) as [-> [= H']].
    f_equal. by apply IH.
Qed.

(** Two well-formed paths with the same string are the same path. *)
Lemma str_inj p q :
  valid_path p = true → valid_path q = true → str p = str q → p = q.
Proof.
  assert (Hdot : ∀ b q, valid_path (b :: q) = true →
            "." ≠ String.concat "/" (b :: q)).
  { intros b q' Hv H. simpl in Hv. apply andb_true_iff in Hv as [Hb _].
    unfold valid_part in Hb.
    apply andb_true_iff in Hb as [[Hb1 Hb2]%andb_true_iff _].
    apply negb_true_iff, String.eqb_neq in Hb1, Hb2.
    destruct q' as [|b2 q'].
    - simpl in H. congruence.
    - rewrite concat_cons2 in H.
      destruct b as [|c b]; [done|]. rewrite append_cons in H.
      injection H as _ H. by destruct b. }
  intros Hp Hq. destruct p as [|a p], q as [|b q]; try done.
  - intros H. by apply Hdot in H.
  - intros H. symmetry in H. by apply Hdot in H.
  - intros H. by apply concat_slash_inj.
Qed.

Lemma lookup_entry_valid n es nd :
  valid_tree (Dir es) = true → lookup_entry n es = Some nd →
  valid_part n = true ∧ valid_tree nd = true.
Proof.
  induction es as [|[m nd'] es IH]; simpl; [done|].
  intros [[Hm Hnd]%andb_true_iff Hes]%andb_true_iff.
  destruct (String.eqb n m) eqn:E.
  - apply String.eqb_eq in E as ->. by intros [= <-].
  - by apply IH.
Qed.

(** In a tree with well-formed names, every path that exists is
    well formed. *)
Lemma resolve_valid q :
  ∀ fs nd, valid_tree fs = true → resolve fs q = Some nd →
           valid_path q = true.
Proof.
  induction q as [|n q IH]; intros fs nd Hfs; simpl; [done|].
  destruct fs as [content|es]; [done|].
  destruct (lookup_entry n es) as [nd'|] eqn:E; [|done].
  destruct (lookup_entry_valid _ _ _ Hfs E) as [-> Hnd'].
  intros H. simpl. by eapply IH.
Qed.

(** ** The walk: claims *)

Lemma beneath_comparable r x q :
  beneath r q → beneath x q → beneath r x ∨ strictly_beneath x r.
Proof.
  intros [a ->] [b H]. revert x b H.
  induction r as [|c r IH]; intros x b H.
  { left. by exists x. }
  destruct x as [|d x].
  { right. exists (c :: r). by split. }
  simpl in H. injection H as -> H.
  destruct (IH x b H) as [[e ->]|(e & He & ->)].
  - left. by exists e.
  - right. by exists e.
Qed.

Section WalkClaims.

Variable fs : node.
Variable LibraryDocumentation : string → result (list string).
Variable ignore : list Path.

#[local] Abbreviation visit' := (visit fs LibraryDocumentation ignore).
#[local] Abbreviation run' := (run fs LibraryDocumentation ignore).
#[local] Abbreviation find' := (find fs LibraryDocumentation ignore).
#[local] Abbreviation iteration' :=
  (iteration fs LibraryDocumentation ignore).

(** What [find] returns is the strings of the recorded paths, sorted. *)
Lemma find_of_run root st :
  run' pop_front root = Some (st, Ok tt) →
  find' root = Some (Ok (str <$> sorted (paths st))).
Proof. unfold find, find_with. by intros ->. Qed.

Lemma find_inv root out :
  find' root = Some (Ok out) →
  ∃ st, run' pop_front root = Some (st, Ok tt) ∧
        out = str <$> sorted (paths st).
Proof.
  unfold find, find_with.
  destruct (run' pop_front root) as [[st [[]|e]]|]; try done.
  intros [= <-]. by exists st.
Qed.

(** Every recorded path comes from a walk started at one of the roots. *)
Lemma run_elem root st q :
  run' pop_front root = Some (st, Ok tt) → q ∈ paths st →
  ∃ r, r ∈ root ∧
    (∃ children, visit' q = Ok ([q], children)) ∧
    beneath r q ∧
    (∀ x, beneath r x → beneath x q → should_ignore ignore x = false) ∧
    (q = r ∨ is_Some (resolve fs q)).
Proof.
  intros Hrun Hq.
  destruct (run_reach fs LibraryDocumentation ignore pop_front root
              pop_front_fair) as (st' & r & Hrun' & Hres).
  rewrite Hrun in Hrun'. injection Hrun' as <- <-.
  destruct (reach_all _ _ _ _ root) as [recorded|] eqn:HR;
    [|by destruct Hres].
  destruct Hres as [_ Hst]. rewrite Hst in Hq.
  destruct (reach_all_elem _ _ _ _ _ _ _ HR Hq)
    as (p & found & Hp & Hf & Hqf).
  exists p. split; [done|]. by eapply reach_elem.
Qed.

Lemma visit_ignored x :
  should_ignore ignore x = true → visit' x = Ok ([], []).
Proof. unfold visit. by intros ->. Qed.

Lemma visit_DataError p msg :
  introspected fs ignore p = true →
  LibraryDocumentation (str p) = Raise (DataError msg) →
  visit' p = Raise (DataError msg).
Proof.
  unfold introspected, visit.
  intros [Hig Hin]%andb_true_iff Hdoc.
  apply negb_true_iff in Hig. rewrite Hig.
  destruct (is_dir fs p).
  - unfold is_module_library, has_keywords. by rewrite Hin, Hdoc.
  - apply andb_true_iff in Hin as [Hsuf Hname].
    unfold is_keyword_file, is_library_file, has_keywords.
    by rewrite Hsuf, Hname, Hdoc.
Qed.

(** In a tree with well-formed names, walked from well-formed roots,
    every recorded path is well formed. *)
Lemma recorded_valid root st q :
  run' pop_front root = Some (st, Ok tt) →
  valid_tree fs = true → Forall (fun r => valid_path r = true) root →
  q ∈ paths st → valid_path q = true.
Proof.
  intros Hrun Hfs Hroot Hq.
  destruct (run_elem _ _ _ Hrun Hq) as (r & Hr & _ & _ & _ & [->|[nd Hnd]]).
  - rewrite Forall_forall in Hroot. by apply Hroot.
  - by eapply resolve_valid.
Qed.

Lemma str_not_recorded root st q :
  run' pop_front root = Some (st, Ok tt) →
  valid_tree fs = true → Forall (fun r => valid_path r = true) root →
  valid_path q = true → q ∉ paths st →
  str q ∉ str <$> sorted (paths st).
Proof.
  intros Hrun Hfs Hroot Hvq Hq (q' & Heq & Hq')%list_elem_of_fmap.
  apply sorted_elem in Hq'.
  assert (q = q') as <-; [|done].
  apply str_inj; [done| |done]. by eapply recorded_valid.
Qed.

(** A walk from one root that puts nothing on the stack returns what
    that root records. *)
Lemma find_single p recorded :
  visit' p = Ok (recorded, []) →
  find' [p] = Some (Ok (str <$> sorted (list_to_set recorded))).
Proof.
  intros Hv.
  pose proof (find_with_reach fs LibraryDocumentation ignore pop_front [p]
                pop_front_fair) as H.
  pose proof (pweight_pos fs p) as Hpos.
  change (walk_bound fs [p]) with (pweight fs p + 0)%nat in H.
  destruct (pweight fs p + 0)%nat as [|n] eqn:E; [lia|].
  rewrite reach_all_cons, reach_step, Hv in H. simpl in H.
  unfold find. rewrite H. do 4 f_equal. set_solver.
Qed.

Lemma sorted_singleton (p : Path) : sorted (list_to_set [p]) = [p].
Proof.
  unfold sorted. simpl. by rewrite union_empty_r_L, elements_singleton.
Qed.

Lemma sorted_empty : sorted (list_to_set []) = [].
Proof. unfold sorted. simpl. by rewrite elements_empty. Qed.

End WalkClaims.

(** C3 (as amended).  What [find] returns has no duplicates and is in
    ascending order of the paths: parts are compared one by one, as
    [pathlib] compares paths, which is not the order of the flat strings.
    The strings too are free of duplicates when the names are well
    formed. *)
Theorem find_sorted_by_parts fs doc ignore root out :
  find fs doc ignore root = Some (Ok out) →
  ∃ ps, out = str <$> ps ∧ NoDup ps ∧ StronglySorted PurePath.lt ps ∧
        (valid_tree fs = true →
         Forall (fun r => valid_path r = true) root → NoDup out).
Proof.
  intros (st & Hrun & ->)%find_inv.
  exists (sorted (paths st)). split; [done|].
  split; [apply sorted_NoDup|]. split; [apply sorted_ascending|].
  intros Hfs Hroot. apply NoDup_fmap_2_strong; [|apply sorted_NoDup].
  intros p q Hp%sorted_elem Hq%sorted_elem.
  apply str_inj; by eapply recorded_valid.
Qed.

(** C3: a run whose result is not in the order of the strings:
    ["r/a.robot"] is below ["r/a/b.robot"] as a string and comes after it
    in what [find] returns. *)
Lemma find_not_sorted_as_strings :
  ∃ out,
    find Examples.fs_order Examples.doc_none [] [["r"]] = Some (Ok out) ∧
    ¬ Sorted (fun s t => string_ltb t s = false) out.
Proof.
  exists ["r/a/b.robot"; "r/a.robot"]. split; [vm_compute; reflexivity|].
  intros H. apply Sorted_inv in H as [_ H]. apply HdRel_inv in H.
  vm_compute in H. discriminate.
Qed.

Lemma find_sorted_by_parts_witness :
  ∃ ps, ["r/a/b.robot"; "r/a.robot"] = str <$> ps ∧ NoDup ps ∧
        StronglySorted PurePath.lt ps ∧
        (valid_tree Examples.fs_order = true →
         Forall (fun r => valid_path r = true) [["r"]] →
         NoDup ["r/a/b.robot"; "r/a.robot"]).
Proof.
  apply (find_sorted_by_parts Examples.fs_order Examples.doc_none [] [["r"]]).
  vm_compute. reflexivity.
Defined.

(** C4 (as amended).  A path that is ignored, by exact match or by its
    name, is never recorded, whatever the introspection says; the turn of
    the loop that pops it only logs; and nothing beneath it is recorded
    either, provided no root itself lies beneath it. *)
Theorem ignored_paths_excluded fs doc ignore root out x :
  find fs doc ignore root = Some (Ok out) →
  should_ignore ignore x = true →
  ∃ st, run fs doc ignore pop_front root = Some (st, Ok tt) ∧
        out = str <$> sorted (paths st) ∧
        (x ∉ paths st) ∧
        (∀ s, iteration fs doc ignore x s =
                (State (paths s) (stack s)
                   (log s ++ [(DEBUG, "Checking: " +:+ str x);
                              (DEBUG, "Ignoring: " +:+ str x)]), Ok tt)) ∧
        ((∀ r, r ∈ root → ¬ strictly_beneath x r) →
         ∀ q, beneath x q →
              (q ∉ paths st) ∧
              (valid_tree fs = true →
               Forall (fun r => valid_path r = true) root →
               valid_path q = true → str q ∉ out)).
Proof.
  intros (st & Hrun & ->)%find_inv Hig.
  exists st. split; [done|]. split; [done|].
  assert (Hnot : ∀ q, q ∈ paths st → beneath x q →
            ∃ r, r ∈ root ∧ strictly_beneath x r).
  { intros q Hq Hxq.
    destruct (run_elem _ _ _ _ _ _ Hrun Hq) as (r & Hr & _ & Hrq & Htrail & _).
    destruct (beneath_comparable _ _ _ Hrq Hxq) as [Hrx|Hxr].
    - specialize (Htrail x Hrx Hxq). congruence.
    - by exists r. }
  split.
  { intros Hx.
    destruct (run_elem _ _ _ _ _ _ Hrun Hx) as (r & _ & _ & Hrx & Htrail & _).
    specialize (Htrail x Hrx (beneath_refl x)). congruence. }
  split.
  { intros s.
    pose proof (iteration_visit fs doc ignore x s) as Hit.
    rewrite (visit_ignored _ _ _ _ Hig) in Hit. rewrite Hit.
    unfold visit_log. rewrite Hig. f_equal. destruct s as [P S L]. simpl.
    f_equal; [set_solver|by rewrite app_nil_r]. }
  intros Hroot q Hxq.
  assert (q ∉ paths st) as Hq.
  { intros Hq. destruct (Hnot q Hq Hxq) as (r & Hr & Hxr).
    by apply (Hroot r). }
  split; [done|]. intros Hfs Hvr Hvq. by eapply str_not_recorded.
Qed.

(** C4: a run where a file beneath an ignored directory is in the result,
    because the file was given as a root. *)
Lemma ignored_descendant_given_as_root :
  ∃ out,
    find Examples.fs_order Examples.doc_none [["r"; "a"]]
      [["r"]; ["r"; "a"; "b.robot"]] = Some (Ok out) ∧
    should_ignore [["r"; "a"]] ["r"; "a"] = true ∧
    strictly_beneath ["r"; "a"] ["r"; "a"; "b.robot"] ∧
    str ["r"; "a"; "b.robot"] ∈ out.
Proof.
  exists ["r/a/b.robot"; "r/a.robot"]. split; [vm_compute; reflexivity|].
  split; [reflexivity|]. split; [by exists ["b.robot"]|].
  apply (bool_decide_unpack _). vm_compute. exact I.
Qed.

Lemma ignored_paths_excluded_witness :
  ∃ st, run Examples.fs_order Examples.doc_none [["r"; "a"]] pop_front [["r"]]
          = Some (st, Ok tt) ∧
        ["r/a.robot"] = str <$> sorted (paths st) ∧
        ["r"; "a"] ∉ paths st.
Proof.
  destruct (ignored_paths_excluded Examples.fs_order Examples.doc_none
              [["r"; "a"]] [["r"]] ["r/a.robot"] ["r"; "a"])
    as (st & Hrun & Hout & Hx & _).
  - vm_compute. reflexivity.
  - vm_compute. reflexivity.
  - exists st. auto.
Defined.

(** C6.  When [LibraryDocumentation] raises [DataError] on a candidate,
    the loop catches it: the turn logs the failure at info level, records
    nothing, leaves the rest of the stack as it is and goes on with it, so
    the run ends as the run without that candidate would; and the
    candidate is in no result. *)
Theorem data_error_is_caught fs doc ignore p msg :
  introspected fs ignore p = true →
  doc (str p) = Raise (DataError msg) →
  (∀ s, iteration fs doc ignore p s =
          (State (paths s) (stack s)
             (log s ++ [(DEBUG, "Checking: " +:+ str p);
                        (INFO, "Parsing failed: " +:+ msg)]), Ok tt)) ∧
  (∀ fuel recorded rest records,
      find_loop fs doc ignore pop_front (S fuel)
        (State recorded (p :: rest) records) =
      find_loop fs doc ignore pop_front fuel
        (State recorded rest
           (records ++ [(DEBUG, "Checking: " +:+ str p);
                        (INFO, "Parsing failed: " +:+ msg)]))) ∧
  (∀ root out,
      find fs doc ignore root = Some (Ok out) →
      ∃ st, run fs doc ignore pop_front root = Some (st, Ok tt) ∧
            out = str <$> sorted (paths st) ∧ p ∉ paths st).
Proof.
  intros Hin Hdoc.
  pose proof (visit_DataError _ _ _ _ _ Hin Hdoc) as Hv.
  assert (Hit : ∀ s, iteration fs doc ignore p s =
            (State (paths s) (stack s)
               (log s ++ [(DEBUG, "Checking: " +:+ str p);
                          (INFO, "Parsing failed: " +:+ msg)]), Ok tt)).
  { intros s. pose proof (iteration_visit fs doc ignore p s) as H.
    by rewrite Hv in H. }
  split; [done|]. split.
  - intros fuel recorded rest records. cbn [find_loop pop_front stack].
    by rewrite Hit.
  - intros root out (st & Hrun & ->)%find_inv.
    exists st. split; [done|]. split; [done|]. intros Hp.
    destruct (run_elem _ _ _ _ _ _ Hrun Hp) as (_ & _ & [c Hc] & _).
    congruence.
Qed.

Lemma data_error_is_caught_witness :
  find Examples.fs_library Examples.doc_broken []
    [["lib"]; ["lib"; "res.robot"]]
    = Some (Ok ["lib/res.robot"]) ∧
  ∀ s, iteration Examples.fs_library Examples.doc_broken [] ["lib"] s =
         (State (paths s) (stack s)
            (log s ++ [(DEBUG, "Checking: lib");
                       (INFO, "Parsing failed: Importing failed")]), Ok tt).
Proof.
  split; [vm_compute; reflexivity|].
  apply (data_error_is_caught Examples.fs_library Examples.doc_broken []
           ["lib"] "Importing failed"); reflexivity.
Defined.

(** C7.  A path named [__init__.py] is not a library file, whatever the
    introspection would say of it. *)
Theorem init_py_is_not_library_file doc p :
  name p = "__init__.py" → is_library_file doc p = Ok false.
Proof.
  intros Hname. unfold is_library_file. rewrite Hname. simpl.
  by destruct (String.eqb (suffix p) ".py").
Qed.

Lemma init_py_is_not_library_file_witness :
  is_library_file (fun _ => Ok ["Say Hello"]) ["lib"; "__init__.py"]
    = Ok false.
Proof. apply init_py_is_not_library_file. reflexivity. Defined.

(** ** The patterns *)

Lemma matches_Fail s : ¬ Matches Fail s.
Proof. inversion 1. Qed.

Lemma matches_Eps s : Matches Eps s ↔ s = [].
Proof. split; [by inversion 1|intros ->; constructor]. Qed.

Lemma matches_Chr f s : Matches (Chr f) s ↔ ∃ c, s = [c] ∧ f c = true.
Proof.
  split; [inversion 1; eauto|]. intros (c & -> & ?). by constructor.
Qed.

Lemma matches_Cat r1 r2 s :
  Matches (Cat r1 r2) s ↔
  ∃ s1 s2, s = s1 ++ s2 ∧ Matches r1 s1 ∧ Matches r2 s2.
Proof.
  split; [inversion 1; eauto|]. intros (s1 & s2 & -> & ? & ?).
  by constructor.
Qed.

Lemma matches_Alt r1 r2 s :
  Matches (Alt r1 r2) s ↔ Matches r1 s ∨ Matches r2 s.
Proof.
  split; [inversion 1; eauto|].
  intros [?|?]; [by apply MAltL|by apply MAltR].
Qed.

Lemma matches_Opt r s : Matches (Opt r) s ↔ Matches r s ∨ s = [].
Proof. unfold Opt. by rewrite matches_Alt, matches_Eps. Qed.

Lemma matches_cat r1 r2 s : Matches (cat r1 r2) s ↔ Matches (Cat r1 r2) s.
Proof.
  assert (HF1 : ∀ r, ¬ Matches (Cat Fail r) s).
  { by intros r (? & ? & _ & ?%matches_Fail & _)%matches_Cat. }
  assert (HF2 : ∀ r, ¬ Matches (Cat r Fail) s).
  { by intros r (? & ? & _ & _ & ?%matches_Fail)%matches_Cat. }
  assert (HE : ∀ r, Matches r s ↔ Matches (Cat Eps r) s).
  { intros r. rewrite matches_Cat. split.
    - intros ?. exists [], s. repeat split; [constructor|done].
    - by intros (s1 & s2 & -> & ->%matches_Eps & ?). }
  destruct r1; simpl;
    [split; [by intros ?%matches_Fail|by intros ?%HF1]|..];
    destruct r2; simpl; try done; try apply HE;
    (split; [by intros ?%matches_Fail|by intros ?%HF2]).
Qed.

Lemma matches_alt r1 r2 s : Matches (alt r1 r2) s ↔ Matches (Alt r1 r2) s.
Proof.
  rewrite matches_Alt.
  destruct r1; simpl;
    [split; [by right|by intros [?%matches_Fail|?]]|..];
    destruct r2; simpl; rewrite ?matches_Alt; try done;
    (split; [by left|by intros [?|?%matches_Fail]]).
Qed.

Lemma nullable_matches r : nullable r = true ↔ Matches r [].
Proof.
  induction r as [| |f|r1 IH1 r2 IH2|r1 IH1 r2 IH2|r IH]; simpl.
  - split; [done|by intros ?%matches_Fail].
  - split; [constructor|done].
  - split; [done|]. by intros (c & ? & _)%matches_Chr.
  - rewrite andb_true_iff, IH1, IH2, matches_Cat. split.
    + intros [? ?]. by exists [], [].
    + intros (s1 & s2 & [-> ->]%eq_sym%app_eq_nil & ? & ?). done.
  - by rewrite orb_true_iff, IH1, IH2, matches_Alt.
  - split; [constructor|done].
Qed.

Lemma matches_Star_cons r c s :
  Matches (Star r) (c :: s) ↔
  ∃ s1 s2, s = s1 ++ s2 ∧ Matches r (c :: s1) ∧ Matches (Star r) s2.
Proof.
  split.
  - inversion 1; subst. eauto.
  - intros (s1 & s2 & -> & ? & ?). by apply MStarS.
Qed.

(** [deriv] is the derivative. *)
Lemma deriv_matches c r : ∀ s, Matches (deriv c r) s ↔ Matches r (c :: s).
Proof.
  induction r as [| |f|r1 IH1 r2 IH2|r1 IH1 r2 IH2|r IH]; intros s; simpl.
  - split; by intros ?%matches_Fail.
  - split; [by intros ?%matches_Fail|by intros ?%matches_Eps].
  - destruct (f c) eqn:E.
    + rewrite matches_Eps, matches_Chr. split.
      * intros ->. eauto.
      * by intros (c' & [= -> ->] & _).
    + rewrite matches_Chr. split; [by intros ?%matches_Fail|].
      intros (c' & [= -> ->] & ?). congruence.
  - assert (Hleft : Matches (cat (deriv c r1) r2) s ↔
              ∃ s1 s2, s = s1 ++ s2 ∧ Matches r1 (c :: s1) ∧ Matches r2 s2).
    { rewrite matches_cat, matches_Cat. by setoid_rewrite IH1. }
    assert (Hcat : Matches (Cat r1 r2) (c :: s) ↔
              (∃ s1 s2, s = s1 ++ s2 ∧ Matches r1 (c :: s1) ∧ Matches r2 s2)
              ∨ (Matches r1 [] ∧ Matches r2 (c :: s))).
    { rewrite matches_Cat. split.
      - intros ([|c' s1] & s2 & Heq & H1 & H2); simpl in Heq.
        + right. by subst.
        + injection Heq as -> ->. left. eauto.
      - intros [(s1 & s2 & -> & H1 & H2)|[H1 H2]].
        + by exists (c :: s1), s2.
        + by exists [], (c :: s). }
    rewrite Hcat. destruct (nullable r1) eqn:E.
    + rewrite matches_alt, matches_Alt, Hleft, IH2.
      apply nullable_matches in E. tauto.
    + rewrite Hleft. split; [tauto|]. intros [?|[Hn _]]; [done|].
      apply nullable_matches in Hn. congruence.
  - by rewrite matches_alt, !matches_Alt, IH1, IH2.
  - rewrite matches_cat, matches_Cat, matches_Star_cons.
    by setoid_rewrite IH.
Qed.

Lemma match_prefix_spec s :
  ∀ r, match_prefix s r = true ↔ ∃ m rest, s = m ++ rest ∧ Matches r m.
Proof.
  induction s as [|c s IH]; intros r; simpl.
  - rewrite orb_false_r, nullable_matches. split.
    + intros ?. by exists [], [].
    + by intros (m & rest & [-> ->]%eq_sym%app_eq_nil & ?).
  - rewrite orb_true_iff, nullable_matches, IH. split.
    + intros [?|(m & rest & -> & ?%deriv_matches)].
      * by exists [], (c :: s).
      * by exists (c :: m), rest.
    + intros ([|c' m] & rest & Heq & H); [by left|right].
      simpl in Heq. injection Heq as -> ->.
      exists m, rest. by rewrite deriv_matches.
Qed.

Lemma search_lines_spec r s :
  ∀ b, search_lines b r s = true ↔
       ∃ before m after, s = before ++ m ++ after ∧ Matches r m ∧
         ((before = [] ∧ b = true) ∨ ∃ before', before = before' ++ [10%N]).
Proof.
  induction s as [|c s IH]; intros b; cbn [search_lines].
  - rewrite orb_false_r, andb_true_iff, match_prefix_spec. split.
    + intros [-> (m & rest & Heq & H)]. exists [], m, rest. auto.
    + intros (before & m & rest & Heq & H & Hb).
      symmetry in Heq. apply app_eq_nil in Heq as [-> [-> ->]%app_eq_nil].
      destruct Hb as [[_ ->]|[b' Hb']]; [|by destruct b'].
      split; [done|]. by exists [], [].
  - rewrite orb_true_iff, andb_true_iff, match_prefix_spec, IH. split.
    + intros [[-> (m & rest & Heq & H)]|
              (before & m & rest & -> & H & Hb)].
      * exists [], m, rest. auto.
      * exists (c :: before), m, rest. split; [done|]. split; [done|].
        right. destruct Hb as [[-> Hc]|[b' ->]].
        -- apply N.eqb_eq in Hc as ->. by exists [].
        -- by exists (c :: b').
    + intros ([|c' before] & m & rest & Heq & H & Hb).
      * left. destruct Hb as [[_ ->]|[b' Hb']]; [|by destruct b'].
        split; [done|]. by exists m, rest.
      * right. simpl in Heq. injection Heq as -> ->.
        exists before, m, rest. split; [done|]. split; [done|].
        destruct Hb as [[? _]|[b' Hb']]; [done|].
        destruct b' as [|c'' b'']; simpl in Hb'.
        -- injection Hb' as -> ->. by left.
        -- injection Hb' as -> ->. right. by exists b''.
Qed.

(** [contains] finds a match of the pattern at the start of a line
    exactly when there is one. *)
Lemma contains_spec data r :
  contains data r = true ↔
  ∃ before m after,
    data = before ++ m ++ after ∧ line_start before ∧ Matches r m.
Proof.
  unfold contains, line_start. rewrite search_lines_spec.
  split; intros (before & m & rest & Heq & H1 & H2);
    exists before, m, rest; intuition.
Qed.

(** *** The patterns and the headers of the specification *)

Lemma matches_Lit title t : Matches (Lit title) t ↔ spells title t.
Proof.
  unfold Lit, spells. revert t.
  induction (codes title) as [|c l IH]; intros t; simpl.
  - rewrite matches_Eps. split; [intros ->; constructor|by inversion 1].
  - rewrite matches_Cat. split.
    + intros (s1 & s2 & -> & (x & -> & Hx)%matches_Chr & H2%IH).
      by constructor.
    + inversion 1 as [|? x ? t' Hx Ht']; subst.
      exists [x], t'. split; [done|]. split; [|by apply IH].
      apply matches_Chr. eauto.
Qed.

Lemma spells_app a b t :
  spells (a +:+ b) t ↔
  ∃ t1 t2, t = t1 ++ t2 ∧ spells a t1 ∧ spells b t2.
Proof.
  unfold spells.
  assert (codes (a +:+ b) = codes a ++ codes b) as ->.
  { unfold codes. rewrite <- fmap_app. f_equal.
    induction a as [|c a IH]; [done|].
    rewrite append_cons. simpl. by rewrite IH. }
  split.
  - intros (t1 & t2 & ? & ? & ->)%Forall2_app_inv_l. eauto.
  - intros (t1 & t2 & -> & ? & ?). by apply Forall2_app.
Qed.

Lemma spells_empty t : spells "" t ↔ t = [].
Proof.
  unfold spells. simpl. split; [by inversion 1|intros ->; constructor].
Qed.

Lemma matches_Opt_Lit title t :
  Matches (Opt (Lit title)) t ↔ spells title t ∨ spells "" t.
Proof. by rewrite matches_Opt, matches_Lit, spells_empty. Qed.

Lemma matches_Star_Chr f s :
  Matches (Star (Chr f)) s ↔ Forall (fun x => f x = true) s.
Proof.
  induction s as [|c s IH].
  - split; constructor.
  - rewrite matches_Star_cons, Forall_cons. split.
    + intros (s1 & s2 & Hs & (x & Heq & Hx)%matches_Chr & H2).
      injection Heq as -> ->. simpl in Hs. subst s2.
      split; [done|]. by apply IH.
    + intros [Hc Hs]. exists [], s. split; [done|].
      split; [|by apply IH]. apply matches_Chr. eauto.
Qed.

Lemma matches_Plus_Chr f s :
  Matches (Plus (Chr f)) s ↔ s ≠ [] ∧ Forall (fun x => f x = true) s.
Proof.
  unfold Plus. rewrite matches_Cat. split.
  - intros (s1 & s2 & -> & (x & -> & Hx)%matches_Chr & H2%matches_Star_Chr).
    split; [done|]. by constructor.
  - intros [Hne Hall]. destruct s as [|c s]; [done|].
    apply Forall_cons in Hall as [Hc Hs].
    exists [c], s. split; [done|]. split.
    + apply matches_Chr. eauto.
    + by apply matches_Star_Chr.
Qed.

(** The common shape of the two patterns. *)
Lemma matches_header_shape title_pattern m :
  Matches (Cat (Plus (Chr (N.eqb 0x2A)))
             (Cat (Star (Chr unicode_space)) title_pattern)) m ↔
  ∃ stars spaces t,
    m = stars ++ spaces ++ t ∧ stars ≠ [] ∧
    Forall (fun x => x = 0x2A%N) stars ∧
    Forall (fun x => unicode_space x = true) spaces ∧
    Matches title_pattern t.
Proof.
  split.
  - intros (stars & ? & -> & [Hne Hst]%matches_Plus_Chr &
            (spaces & t & -> & Hsp%matches_Star_Chr & Ht)%matches_Cat)
             %matches_Cat.
    exists stars, spaces, t. repeat split; try done.
    eapply Forall_impl; [exact Hst|]. intros x Hx.
    by apply N.eqb_eq in Hx.
  - intros (stars & spaces & t & -> & Hne & Hst & Hsp & Ht).
    apply matches_Cat. exists stars, (spaces ++ t). split; [done|]. split.
    + apply matches_Plus_Chr. split; [done|].
      eapply Forall_impl; [exact Hst|]. by intros x ->.
    + apply matches_Cat. exists spaces, t. split; [done|].
      split; [by apply matches_Star_Chr|done].
Qed.

Lemma keywords_pattern_header m :
  Matches keywords_pattern m ↔ is_header KEYWORD_TITLES m.
Proof.
  unfold keywords_pattern, is_header. rewrite matches_header_shape.
  assert (Htitle : ∀ t,
    Matches (Cat (Opt (Lit "User ")) (Cat (Lit "Keyword") (Opt (Lit "s")))) t
    ↔ ∃ title, title ∈ KEYWORD_TITLES ∧ spells title t).
  { intros t. rewrite matches_Cat. setoid_rewrite matches_Cat.
    setoid_rewrite matches_Opt_Lit. setoid_rewrite matches_Lit.
    unfold KEYWORD_TITLES. split.
    - intros (t1 & ? & -> & H1 & t2 & t3 & -> & H2 & H3).
      destruct H1 as [H1|H1], H3 as [H3|H3].
      + exists "User Keywords". split; [set_solver|].
        apply (spells_app "User " "Keywords"). exists t1, (t2 ++ t3).
        split; [done|]. split; [done|].
        apply (spells_app "Keyword" "s"). by exists t2, t3.
      + exists "User Keyword". split; [set_solver|].
        apply spells_empty in H3 as ->. rewrite app_nil_r.
        apply (spells_app "User " "Keyword"). by exists t1, t2.
      + exists "Keywords". split; [set_solver|].
        apply spells_empty in H1 as ->. simpl.
        apply (spells_app "Keyword" "s"). by exists t2, t3.
      + exists "Keyword". split; [set_solver|].
        apply spells_empty in H1 as ->. apply spells_empty in H3 as ->.
        by rewrite app_nil_r.
    - intros (title & Hin & Hsp).
      repeat (apply elem_of_cons in Hin as [->|Hin]);
        [| | | |by apply elem_of_nil in Hin].
      + exists [], t. split; [done|]. split; [right; by apply spells_empty|].
        exists t, []. rewrite app_nil_r. split; [done|]. split; [done|].
        right. by apply spells_empty.
      + apply (spells_app "Keyword" "s") in Hsp as (t2 & t3 & -> & ? & ?).
        exists [], (t2 ++ t3). split; [done|].
        split; [right; by apply spells_empty|].
        exists t2, t3. eauto 10.
      + apply (spells_app "User " "Keyword") in Hsp as (t1 & t2 & -> & ? & ?).
        exists t1, t2. split; [done|]. split; [by left|].
        exists t2, []. rewrite app_nil_r. split; [done|]. split; [done|].
        right. by apply spells_empty.
      + apply (spells_app "User " "Keywords") in Hsp
          as (t1 & t23 & -> & ? & Hk).
        apply (spells_app "Keyword" "s") in Hk as (t2 & t3 & -> & ? & ?).
        exists t1, (t2 ++ t3). split; [done|]. split; [by left|].
        exists t2, t3. auto. }
  setoid_rewrite Htitle. split.
  - intros (stars & spaces & t & -> & ? & ? & ? & title & ? & ?).
    exists stars, spaces, t, title. eauto 10.
  - intros (stars & spaces & t & title & -> & ? & ? & ? & ? & ?).
    exists stars, spaces, t. eauto 10.
Qed.


(** The two scans of [is_resource_file] decide the two kinds of header. *)
Lemma contains_keywords data :
  contains data keywords_pattern = true ↔ has_header KEYWORD_TITLES data.
Proof.
  rewrite contains_spec. unfold has_header.
  by setoid_rewrite keywords_pattern_header.
Qed.


(** ** Resource files: claims *)

(** A header stays where it is when text is added after it, and a test
    case section added on a line of its own is a header. *)
Lemma has_header_more titles data more :
  has_header titles data → has_header titles (data ++ more).
Proof.
  intros (before & h & after & -> & ? & ?).
  exists before, h, (after ++ more). by rewrite <- !app_assoc.
Qed.

Lemma has_header_added data more :
  has_header TASK_TITLES
    (data ++ 10%N :: codes "*** Test Cases ***" ++ more).
Proof.
  exists (data ++ [10%N]), (codes "*** Test Cases"), (codes " ***" ++ more).
  split; [by rewrite <- !app_assoc|]. split; [right; by eexists|].
  exists (codes "***"), (codes " "), (codes "Test Cases"), "Test Cases".
  split; [done|]. split; [done|].
  split; [by repeat constructor|]. split; [by repeat constructor|].
  split; [unfold TASK_TITLES; set_solver|]. by repeat constructor.
Qed.



(** C8 (as amended).  Whatever bytes a regular file holds, the header
    scan returns an answer and raises nothing: the bytes that are not
    valid UTF-8 are dropped, and the answer is that of the two patterns on
    the text that is left.  A file that is not text is therefore judged
    like any other, and a walk from a file with one of the extensions
    never stops on it: the file is left out when what is left of its text
    has no keywords header, and returned when it has one (and no test case
    or task header). *)
Theorem header_scan_never_raises fs p content :
  resolve fs p = Some (File content) →
  ∃ data,
    decode_text Ignore content = Ok data ∧
    read_text Ignore fs p = Ok data ∧
    is_resource_file fs p =
      Ok (negb (bool_decide (name p ∈ INIT_FILES)
                || negb (bool_decide (suffix p ∈ EXTENSIONS)))
          && (negb (contains data tasks_pattern)
              && contains data keywords_pattern)) ∧
    ∀ doc ignore,
      suffix p ∈ EXTENSIONS →
      find fs doc ignore [p] =
        Some (Ok (if negb (should_ignore ignore p)
                     && negb (bool_decide (name p ∈ INIT_FILES))
                     && (negb (contains data tasks_pattern)
                         && contains data keywords_pattern)
                  then [str p] else [])).
Proof.
  intros Hp. destruct (decode_text_ignore_total content) as [data Hdata].
  exists data. split; [done|].
  assert (Hread : read_text Ignore fs p = Ok data).
  { unfold read_text, open_read. rewrite Hp. simpl. done. }
  split; [done|].
  assert (Hres : is_resource_file fs p =
      Ok (negb (bool_decide (name p ∈ INIT_FILES)
                || negb (bool_decide (suffix p ∈ EXTENSIONS)))
          && (negb (contains data tasks_pattern)
              && contains data keywords_pattern))).
  { unfold is_resource_file. rewrite Hread. by destruct (_ || _). }
  split; [done|]. intros doc ignore Hsuf.
  assert (Hlib : is_library_file doc p = Ok false).
  { unfold is_library_file.
    destruct (String.eqb (suffix p) ".py") eqn:E; [|done].
    apply String.eqb_eq in E. rewrite E in Hsuf.
    unfold EXTENSIONS in Hsuf. set_solver. }
  assert (Hdir : is_dir fs p = false) by (unfold is_dir; by rewrite Hp).
  set (b := negb (bool_decide (name p ∈ INIT_FILES))
            && (negb (contains data tasks_pattern)
                && contains data keywords_pattern)).
  assert (Hv : visit fs doc ignore p =
            Ok (if negb (should_ignore ignore p) && b then [p] else [], [])).
  { unfold visit. destruct (should_ignore ignore p); [done|].
    rewrite Hdir. unfold is_keyword_file. rewrite Hlib. simpl.
    rewrite Hres, (bool_decide_eq_true_2 _ Hsuf). simpl.
    rewrite orb_false_r. done. }
  rewrite (find_single fs doc ignore p _ Hv).
  rewrite <- andb_assoc. fold b.
  destruct (negb (should_ignore ignore p) && b);
    [by rewrite sorted_singleton|by rewrite sorted_empty].
Qed.

Lemma header_scan_never_raises_witness :
  utf8_decode Strict 0 Examples.blob = Raise (UnicodeDecodeError 0) ∧
  decode_text Ignore Examples.blob = Ok [0x2A%N] ∧
  is_resource_file Examples.fs_blob ["blob.txt"] = Ok false ∧
  find Examples.fs_blob Examples.doc_none [] [["blob.txt"]] = Some (Ok []).
Proof.
  split; [reflexivity|].
  destruct (header_scan_never_raises Examples.fs_blob ["blob.txt"] _ eq_refl)
    as (data & Hdata & _ & Hres & Hfind).
  split; [reflexivity|].
  vm_compute in Hdata. injection Hdata as <-. split.
  - rewrite Hres. vm_compute. reflexivity.
  - etrans.
    + apply (Hfind Examples.doc_none []).
      apply (bool_decide_unpack _). vm_compute. exact I.
    + vm_compute. reflexivity.
Defined.

(** C8: a file that is not text and is a resource file all the same: its
    first two bytes are not valid UTF-8, strict decoding fails, and what
    is left after them is a keywords header, so [find] returns the
    file. *)
Lemma non_text_file_with_header_is_returned :
  resolve MoreExamples.fs_blob_header ["blob.txt"]
    = Some (File MoreExamples.blob_with_header) ∧
  utf8_decode Strict 0 MoreExamples.blob_with_header
    = Raise (UnicodeDecodeError 0) ∧
  is_resource_file MoreExamples.fs_blob_header ["blob.txt"] = Ok true ∧
  find MoreExamples.fs_blob_header Examples.doc_none [] [["blob.txt"]]
    = Some (Ok ["blob.txt"]).
Proof. repeat split; vm_compute; reflexivity. Qed.

(** ** The defects *)

(** C1.  In a module library, a file that is a resource file is listed by
    the search beneath the directory and yet is not in the result: [find]
    asks [is_resource_file] about the directory, not about the file. *)
Theorem module_library_resources_not_recorded :
  is_module_library Examples.fs_library Examples.doc_lib ["lib"] = Ok true ∧
  ["lib"; "res.robot"] ∈ glob_all Examples.fs_library ["lib"] ∧
  is_resource_file Examples.fs_library ["lib"; "res.robot"] = Ok true ∧
  is_resource_file Examples.fs_library ["lib"] = Ok false ∧
  find Examples.fs_library Examples.doc_lib [] [["lib"]] = Some (Ok ["lib"]).
Proof.
  split; [reflexivity|]. split; [|repeat split; vm_compute; reflexivity].
  apply (bool_decide_unpack _). vm_compute. exact I.
Qed.

(** C2.  With [--output out.json] and nothing to find, the run writes the
    serialized result into a file whose name is the serialized result
    itself; [out.json] is not written. *)
Theorem output_written_under_serialized_name dumps format :
  Cli.main Examples.fs_empty Examples.doc_none dumps format
    (Cli.Args [[]] (Some ["out.json"]) [] false)
  = Some ([Cli.FileWrite (dumps []) (dumps [])], None).
Proof.
  unfold Cli.main.
  set (r := run _ _ _ _ _). vm_compute in r. subst r. cbv beta iota.
  reflexivity.
Qed.


(** * Further properties of the walk *)

(** ** Termination *)

Lemma find_loop_more_fuel fs doc ignore pop fuel :
  ∀ st x extra,
    find_loop fs doc ignore pop fuel st = Some x →
    find_loop fs doc ignore pop (fuel + extra) st = Some x.
Proof.
  induction fuel as [|fuel IH]; intros st x extra; simpl.
  - destruct (pop (stack st)) as [[p rest]|] eqn:E; [done|].
    intros [= <-]. destruct extra; simpl; by rewrite E.
  - destruct (pop (stack st)) as [[p rest]|]; [|done].
    destruct (iteration _ _ _ _ _) as [st' [[]|e]]; [apply IH|done].
Qed.

(** X1.  On a finite tree [find] always comes to an end, whatever the
    roots, the ignore list and the introspection: it returns a list or
    raises.  [walk_bound] turns of the loop are enough for that, and a
    budget of more turns gives the same run. *)
Theorem find_always_ends fs doc ignore root :
  (∃ r, find fs doc ignore root = Some r) ∧
  ∀ fuel, (walk_bound fs root ≤ fuel)%nat →
          find_loop fs doc ignore pop_front fuel (State ∅ root [])
          = run fs doc ignore pop_front root.
Proof.
  destruct (run_reach fs doc ignore pop_front root pop_front_fair)
    as (st & r & Hrun & _).
  split.
  - unfold find, find_with. rewrite Hrun. destruct r; by eexists.
  - intros fuel Hfuel. rewrite Hrun. unfold run in Hrun.
    replace fuel with (walk_bound fs root + (fuel - walk_bound fs root))%nat
      by lia.
    by apply find_loop_more_fuel.
Qed.

(** ** The roots as a set, and runs put together *)

Section ReachFacts.

Variable fs : node.
Variable doc : string → result (list string).
Variable ignore : list Path.

#[local] Abbreviation reach' := (reach fs doc ignore).
#[local] Abbreviation reach_all' := (reach_all fs doc ignore).

Lemma reach_all_None depth l :
  reach_all' depth l = None ↔ ∃ p, p ∈ l ∧ reach' depth p = None.
Proof.
  induction l as [|p l IH].
  - split; [done|]. intros (p & Hp & _). by apply elem_of_nil in Hp.
  - rewrite reach_all_cons. split.
    + destruct (reach' depth p) as [R1|] eqn:E1.
      * destruct (reach_all' depth l) as [R2|] eqn:E2; [done|].
        intros _. destruct (proj1 IH eq_refl) as (q & Hq & Hn).
        exists q. split; [by right|done].
      * intros _. exists p. split; [by left|done].
    + intros (q & [->|Hq]%elem_of_cons & Hn).
      * by rewrite Hn.
      * assert (reach_all' depth l = None) as -> by (apply IH; eauto).
        apply both_None_r.
Qed.

Lemma reach_all_Some depth l recorded q :
  reach_all' depth l = Some recorded →
  q ∈ recorded ↔
  ∃ p found, p ∈ l ∧ reach' depth p = Some found ∧ q ∈ found.
Proof.
  intros HR. split; [by eapply reach_all_elem|].
  revert recorded HR. induction l as [|p l IH]; intros recorded HR.
  { intros (p & ? & Hp & _). by apply elem_of_nil in Hp. }
  rewrite reach_all_cons in HR.
  destruct (reach' depth p) as [R1|] eqn:E1; [|done].
  destruct (reach_all' depth l) as [R2|] eqn:E2; [|by rewrite both_None_r in HR].
  rewrite both_Some in HR. injection HR as <-.
  intros (p' & found & [->|Hp']%elem_of_cons & Hf & Hq).
  - rewrite E1 in Hf. injection Hf as <-. set_solver.
  - apply elem_of_union_r. apply (IH R2 eq_refl). eauto.
Qed.

(** What the walks from a list of roots record depends on the roots as
    a set only. *)
Lemma reach_all_same_elements depth l1 l2 :
  (∀ p, p ∈ l1 ↔ p ∈ l2) → reach_all' depth l1 = reach_all' depth l2.
Proof.
  intros Hsame.
  destruct (reach_all' depth l1) as [R1|] eqn:E1,
           (reach_all' depth l2) as [R2|] eqn:E2.
  - f_equal. apply set_eq. intros q.
    rewrite (reach_all_Some _ _ _ q E1), (reach_all_Some _ _ _ q E2).
    by setoid_rewrite Hsame.
  - apply reach_all_None in E2 as (p & Hp & Hn).
    assert (reach_all' depth l1 = None); [|congruence].
    apply reach_all_None. exists p. by rewrite Hsame.
  - apply reach_all_None in E1 as (p & Hp & Hn).
    assert (reach_all' depth l2 = None); [|congruence].
    apply reach_all_None. exists p. by rewrite <- Hsame.
  - done.
Qed.

(** Two lists of roots from which the walks record the same give the
    same result. *)
Lemma find_same_reach l1 l2 :
  reach_all' (walk_bound fs l1) l1 = reach_all' (walk_bound fs l2) l2 →
  (∀ out, find fs doc ignore l1 = Some (Ok out) ↔
          find fs doc ignore l2 = Some (Ok out)) ∧
  ((∃ e, find fs doc ignore l1 = Some (Raise e)) ↔
   (∃ e, find fs doc ignore l2 = Some (Raise e))).
Proof.
  intros Heq.
  pose proof (find_with_reach fs doc ignore pop_front l1 pop_front_fair) as H1.
  pose proof (find_with_reach fs doc ignore pop_front l2 pop_front_fair) as H2.
  rewrite Heq in H1. unfold find.
  destruct (reach_all' (walk_bound fs l2) l2) as [R|].
  - rewrite H1, H2. split; [done|]. split; by intros [e ?].
  - destruct H1 as [e1 ->], H2 as [e2 ->]. split; [done|]. split; eauto.
Qed.

End ReachFacts.

(** X2.  The roots count as a set: giving them in another order, or one
    of them twice, changes neither the list that [find] returns nor
    whether it raises. *)
Theorem roots_as_a_set fs doc ignore l1 l2 :
  (∀ p, p ∈ l1 ↔ p ∈ l2) →
  (∀ out, find fs doc ignore l1 = Some (Ok out) ↔
          find fs doc ignore l2 = Some (Ok out)) ∧
  ((∃ e, find fs doc ignore l1 = Some (Raise e)) ↔
   (∃ e, find fs doc ignore l2 = Some (Raise e))).
Proof.
  intros Hsame. apply find_same_reach.
  set (N := (walk_bound fs l1 + walk_bound fs l2)%nat).
  rewrite (reach_all_stable fs doc ignore (walk_bound fs l1) N l1) by lia.
  rewrite (reach_all_stable fs doc ignore (walk_bound fs l2) N l2) by lia.
  by apply reach_all_same_elements.
Qed.

Lemma roots_as_a_set_witness :
  find Examples.fs_order Examples.doc_none []
    [["r"; "a.robot"]; ["r"; "a"]; ["r"; "a.robot"]]
  = Some (Ok ["r/a/b.robot"; "r/a.robot"]).
Proof.
  apply (roots_as_a_set Examples.fs_order Examples.doc_none []
           [["r"; "a"]; ["r"; "a.robot"]]
           [["r"; "a.robot"]; ["r"; "a"]; ["r"; "a.robot"]]).
  - intros p. rewrite !elem_of_cons. tauto.
  - vm_compute. reflexivity.
Defined.

(** X3.  A run on two lists of roots put together returns exactly when
    the runs on each list return, and then it returns what the two
    recorded, merged and sorted. *)
Theorem find_of_both_lists fs doc ignore l1 l2 out :
  find fs doc ignore (l1 ++ l2) = Some (Ok out) ↔
  ∃ st1 st2,
    run fs doc ignore pop_front l1 = Some (st1, Ok tt) ∧
    run fs doc ignore pop_front l2 = Some (st2, Ok tt) ∧
    out = str <$> sorted (paths st1 ∪ paths st2).
Proof.
  pose proof (find_with_reach fs doc ignore pop_front (l1 ++ l2)
                pop_front_fair) as H.
  destruct (run_reach fs doc ignore pop_front l1 pop_front_fair)
    as (st1 & r1 & Hrun1 & H1).
  destruct (run_reach fs doc ignore pop_front l2 pop_front_fair)
    as (st2 & r2 & Hrun2 & H2).
  rewrite reach_all_app, walk_bound_app in H.
  rewrite (reach_all_stable fs doc ignore _ (walk_bound fs l1) l1) in H
    by lia.
  rewrite (reach_all_stable fs doc ignore _ (walk_bound fs l2) l2) in H
    by lia.
  unfold find. rewrite Hrun1, Hrun2.
  destruct (reach_all fs doc ignore (walk_bound fs l1) l1) as [R1|].
  - destruct H1 as [-> HP1].
    destruct (reach_all fs doc ignore (walk_bound fs l2) l2) as [R2|].
    + destruct H2 as [-> HP2]. rewrite both_Some in H. rewrite H.
      rewrite <- HP1, <- HP2. split.
      * intros [= <-]. by exists st1, st2.
      * intros (s1 & s2 & [= <-] & [= <-] & ->). done.
    + destruct H2 as [e2 ->]. rewrite both_None_r in H.
      destruct H as [e ->]. split; [done|].
      by intros (s1 & s2 & _ & ? & _).
  - destruct H1 as [e1 ->]. rewrite both_None_l in H.
    destruct H as [e ->]. split; [done|].
    by intros (s1 & s2 & ? & _).
Qed.

(** ** What is returned, exactly *)

Lemma lookup_entry_Some_listed n es nd :
  lookup_entry n es = Some nd → n ∈ es.*1.
Proof.
  induction es as [|[m nd'] es IH]; simpl; [done|].
  destruct (String.eqb n m) eqn:E.
  - apply String.eqb_eq in E as ->. intros _. by left.
  - intros H. right. by apply IH.
Qed.

Lemma strictly_beneath_irrefl p : ¬ strictly_beneath p p.
Proof.
  intros (rest & Hne & H). rewrite <- (app_nil_r p) in H at 1.
  apply app_inv_head in H. by subst.
Qed.

Lemma strictly_beneath_beneath x q : strictly_beneath x q → beneath x q.
Proof. intros (rest & _ & ->). by exists rest. Qed.

Section Exactly.

Variable fs : node.
Variable doc : string → result (list string).
Variable ignore : list Path.

#[local] Abbreviation visit' := (visit fs doc ignore).
#[local] Abbreviation reach' := (reach fs doc ignore).
#[local] Abbreviation reach_all' := (reach_all fs doc ignore).
#[local] Abbreviation accepted' := (accepted fs doc ignore).
#[local] Abbreviation expanded' := (expanded fs doc ignore).

(** A candidate records itself exactly when it is accepted, unless the
    turn raises. *)
Lemma visit_accepted q children :
  visit' q = Ok ([q], children) → accepted' q ∧ children = [].
Proof.
  unfold visit, accepted. destruct (should_ignore ignore q); [done|].
  destruct (is_dir fs q).
  - destruct (is_module_library fs doc q) as [[]|e]; simpl; [| |done].
    + destruct (comprehension _ _); simpl; [|done]. by intros [= _ <-].
    + by destruct (iterdir fs q).
  - destruct (is_keyword_file fs doc q) as [[]|e]; simpl; [| |done].
    + by intros [= <-].
    + done.
Qed.

Lemma accepted_visit q :
  accepted' q →
  (∃ recorded, visit' q = Ok (q :: recorded, [])) ∨
  (∃ e, visit' q = Raise e ∧ is_DataError e = false).
Proof.
  unfold accepted, visit. intros [-> Hq].
  destruct (is_dir fs q).
  - rewrite Hq. simpl. rewrite comprehension_const.
    pose proof (is_resource_file_not_DataError fs q) as Hne.
    destruct (glob_all fs q); simpl; [left; by eexists|].
    destruct (is_resource_file fs q) as [[]|e]; simpl;
      [left; by eexists|left; by eexists|].
    right. exists e. split; [done|]. destruct e; try done.
    by destruct (Hne msg).
  - rewrite Hq. simpl. left. by eexists.
Qed.

Lemma expanded_visit x :
  expanded' x →
  ∃ es, resolve fs x = Some (Dir es) ∧
        visit' x = Ok ([], joinpath x <$> es.*1).
Proof.
  unfold expanded, visit, is_dir, iterdir. intros (-> & Hdir & ->).
  destruct (resolve fs x) as [[content|es]|]; try done.
  by exists es.
Qed.

(** Every directory between the start of a walk and a path it records
    was gone into. *)
Lemma reach_trail depth :
  ∀ p recorded q,
    reach' depth p = Some recorded → q ∈ recorded →
    ∀ x, beneath p x → strictly_beneath x q → expanded' x.
Proof.
  induction depth as [|depth IH]; intros p recorded q; [done|].
  rewrite reach_step.
  destruct (visit' p) as [[rec children]|e] eqn:Hv.
  2:{ destruct e; try done. intros [= <-]. set_solver. }
  destruct (reach_all' depth children) as [R|] eqn:HR;
    [|by rewrite both_None_r].
  rewrite both_Some. intros [= <-] [Hq|Hq]%elem_of_union x Hpx Hxq.
  - destruct (visit_recorded _ _ _ _ _ _ Hv) as [->|[-> Hig]]; [set_solver|].
    assert (q = p) as -> by set_solver.
    destruct Hpx as [r1 ->]. destruct Hxq as (r2 & Hne & H).
    rewrite <- app_assoc in H. rewrite <- (app_nil_r p) in H at 1.
    apply app_inv_head in H. symmetry in H.
    by apply app_eq_nil in H as [_ ->].
  - destruct (reach_all_elem _ _ _ _ _ _ _ HR Hq)
      as (k & found & Hk & Hf & Hqf).
    destruct (visit_children _ _ _ _ _ _ Hv)
      as [->|(Hig & Hml & _ & es & Hp & ->)]; [set_solver|].
    apply list_elem_of_fmap in Hk as (n & -> & Hn).
    destruct (reach_elem _ _ _ _ _ _ _ Hf Hqf) as (_ & Hkq & _).
    destruct (beneath_between _ _ _ _ Hpx (strictly_beneath_beneath _ _ Hxq)
                Hkq) as [->|Hkx].
    + repeat split; try done. unfold is_dir. by rewrite Hp.
    + by eapply IH.
Qed.

(** A walk that ends normally records every accepted path it can come
    to. *)
Lemma reach_complete rest :
  ∀ depth r recorded,
    reach' depth r = Some recorded →
    walked_to fs doc ignore r (r ++ rest) →
    accepted' (r ++ rest) →
    r ++ rest ∈ recorded.
Proof.
  induction rest as [|a rest IH]; intros depth r recorded Hreach Hw Hacc.
  - rewrite app_nil_r in *. destruct depth as [|depth]; [done|].
    rewrite reach_step in Hreach.
    destruct (accepted_visit _ Hacc) as [[rec Hv]|(e & Hv & He)];
      rewrite Hv in Hreach.
    + destruct (reach_all' depth []) as [R|]; [|done].
      rewrite both_Some in Hreach. injection Hreach as <-. set_solver.
    + by destruct e.
  - destruct Hw as (Hb & Hex & Htrail).
    assert (expanded' r) as Hexp.
    { apply Htrail; [apply beneath_refl|]. by exists (a :: rest). }
    destruct (expanded_visit _ Hexp) as (es & Hr & Hv).
    destruct depth as [|depth]; [done|].
    rewrite reach_step, Hv in Hreach.
    destruct (reach_all' depth (joinpath r <$> es.*1)) as [R|] eqn:HR;
      [|by rewrite both_None_r in Hreach].
    rewrite both_Some in Hreach. injection Hreach as <-.
    apply elem_of_union_r.
    assert (is_Some (resolve fs (r ++ a :: rest))) as [nd Hnd].
    { destruct Hex as [Heq|?]; [|done].
      rewrite <- (app_nil_r r) in Heq at 2. by apply app_inv_head in Heq. }
    assert (a ∈ es.*1) as Ha.
    { rewrite resolve_app, Hr in Hnd. simpl in Hnd.
      destruct (lookup_entry a es) as [nd'|] eqn:E; [|done].
      by eapply lookup_entry_Some_listed. }
    assert (∃ found, reach' depth (joinpath r a) = Some found) as [found Hf].
    { destruct (reach' depth (joinpath r a)) as [found|] eqn:E;
        [by eexists|].
      assert (reach_all' depth (joinpath r <$> es.*1) = None); [|congruence].
      apply reach_all_None. exists (joinpath r a).
      split; [|done]. apply list_elem_of_fmap. eauto. }
    apply (reach_all_Some _ _ _ _ _ _ _ HR).
    exists (joinpath r a), found.
    split; [apply list_elem_of_fmap; eauto|]. split; [done|].
    unfold joinpath in *.
    replace (r ++ a :: rest) with ((r ++ [a]) ++ rest) in *
      by (by rewrite <- app_assoc).
    apply (IH depth (r ++ [a]) found Hf); [|done].
    split; [by exists rest|]. split; [right; by eexists|].
    intros x [r1 ->] Hx. apply Htrail; [|done].
    exists ([a] ++ r1). by rewrite app_assoc.
Qed.

End Exactly.

(** X4.  Every path [find] returns was accepted as a candidate: it is not
    ignored, it is a module library when it is a directory and a keyword
    file otherwise; and it is one of the roots or exists beneath one,
    reached through directories that were gone into. *)
Theorem returned_paths_are_accepted fs doc ignore root out :
  find fs doc ignore root = Some (Ok out) →
  ∃ st, run fs doc ignore pop_front root = Some (st, Ok tt) ∧
        out = str <$> sorted (paths st) ∧
        ∀ q, q ∈ paths st →
             accepted fs doc ignore q ∧
             ∃ r, r ∈ root ∧ walked_to fs doc ignore r q.
Proof.
  intros (st & Hrun & ->)%find_inv. exists st. split; [done|].
  split; [done|]. intros q Hq.
  destruct (run_reach fs doc ignore pop_front root pop_front_fair)
    as (st' & r & Hrun' & Hres).
  rewrite Hrun in Hrun'. injection Hrun' as <- <-.
  destruct (reach_all fs doc ignore _ root) as [recorded|] eqn:HR;
    [|by destruct Hres].
  destruct Hres as [_ Hst]. rewrite Hst in Hq.
  destruct (reach_all_elem _ _ _ _ _ _ _ HR Hq) as (p & found & Hp & Hf & Hqf).
  destruct (reach_elem _ _ _ _ _ _ _ Hf Hqf) as ([c Hc] & Hb & _ & Hex).
  split; [by apply (visit_accepted _ _ _ _ _ Hc)|].
  exists p. split; [done|]. split; [done|]. split; [done|].
  by eapply reach_trail.
Qed.

Lemma returned_paths_are_accepted_witness :
  ∃ st, run Examples.fs_order Examples.doc_none [] pop_front [["r"]]
          = Some (st, Ok tt) ∧
        ["r/a/b.robot"; "r/a.robot"] = str <$> sorted (paths st) ∧
        ∀ q, q ∈ paths st →
             accepted Examples.fs_order Examples.doc_none [] q ∧
             ∃ r, r ∈ [["r"]] ∧
                  walked_to Examples.fs_order Examples.doc_none [] r q.
Proof.
  apply (returned_paths_are_accepted Examples.fs_order Examples.doc_none []
           [["r"]]).
  vm_compute. reflexivity.
Defined.

(** X5.  When [find] returns, it returns every accepted path that the
    walk from some root comes to: a root, or a path that exists beneath a
    root such that every directory from the root down to it was gone
    into, that is, was not ignored and had [is_module_library] answer
    [False] (a directory whose introspection raises [DataError] is not
    gone into). *)
Theorem accepted_paths_are_returned fs doc ignore root out r q :
  find fs doc ignore root = Some (Ok out) →
  r ∈ root →
  walked_to fs doc ignore r q →
  accepted fs doc ignore q →
  ∃ st, run fs doc ignore pop_front root = Some (st, Ok tt) ∧
        out = str <$> sorted (paths st) ∧
        q ∈ paths st ∧ str q ∈ out.
Proof.
  intros (st & Hrun & ->)%find_inv Hr Hw Hacc. exists st.
  split; [done|]. split; [done|].
  assert (q ∈ paths st) as Hq.
  { destruct (run_reach fs doc ignore pop_front root pop_front_fair)
      as (st' & res & Hrun' & Hres).
    rewrite Hrun in Hrun'. injection Hrun' as <- <-.
    destruct (reach_all fs doc ignore _ root) as [recorded|] eqn:HR;
      [|by destruct Hres].
    destruct Hres as [_ ->].
    destruct (reach fs doc ignore (walk_bound fs root) r) as [found|] eqn:Hf.
    2:{ assert (reach_all fs doc ignore (walk_bound fs root) root = None);
          [|congruence].
        apply reach_all_None. eauto. }
    apply (reach_all_Some _ _ _ _ _ _ _ HR). exists r, found.
    split; [done|]. split; [done|].
    destruct Hw as ([rest ->] & Hex & Htrail).
    eapply reach_complete; [exact Hf| |done].
    split; [by exists rest|]. by split. }
  split; [done|]. apply list_elem_of_fmap. exists q.
  split; [done|]. by apply sorted_elem.
Qed.

Lemma accepted_paths_are_returned_witness :
  ∃ st, run Examples.fs_order Examples.doc_none [] pop_front [["r"]]
          = Some (st, Ok tt) ∧
        ["r/a/b.robot"; "r/a.robot"] = str <$> sorted (paths st) ∧
        ["r"; "a"; "b.robot"] ∈ paths st ∧
        str ["r"; "a"; "b.robot"] ∈ ["r/a/b.robot"; "r/a.robot"].
Proof.
  apply (accepted_paths_are_returned Examples.fs_order Examples.doc_none []
           [["r"]] _ ["r"] ["r"; "a"; "b.robot"]).
  - vm_compute. reflexivity.
  - by left.
  - split; [by exists ["a"; "b.robot"]|].
    split; [right; vm_compute; by eexists|].
    intros x [r1 ->] (r2 & Hne & H).
    rewrite <- app_assoc in H. simpl in H. injection H as H.
    destruct r1 as [|n1 r1].
    + repeat split; vm_compute; reflexivity.
    + simpl in H. injection H as <- H.
      destruct r1 as [|n2 r1].
      * repeat split; vm_compute; reflexivity.
      * simpl in H. injection H as <- H. symmetry in H.
        apply app_eq_nil in H as [_ ->]. done.
  - split; vm_compute; reflexivity.
Defined.

(** ** Directories *)

Section Directories.

Variable fs : node.
Variable doc : string → result (list string).
Variable ignore : list Path.

Lemma is_resource_file_of_dir p :
  is_dir fs p = true →
  is_resource_file fs p =
    if bool_decide (name p ∈ INIT_FILES)
       || negb (bool_decide (suffix p ∈ EXTENSIONS))
    then Ok false else Raise (IsADirectoryError (str p)).
Proof.
  unfold is_dir, is_resource_file, read_text, open_read.
  destruct (resolve fs p) as [[content|es]|]; try done.
Qed.

Lemma module_library_has_entries p :
  is_module_library fs doc p = Ok true → glob_all fs p ≠ [].
Proof.
  unfold is_module_library, is_file, joinpath, glob_all.
  rewrite resolve_app.
  destruct (resolve fs p) as [[content|es]|]; simpl; try done.
  destruct es as [|[n nd] es]; simpl; done.
Qed.

(** A walk from one root whose turn raises ends with that exception. *)
Lemma find_single_raises p e :
  (∀ s, (iteration fs doc ignore p s).2 = Raise e) →
  find fs doc ignore [p] = Some (Raise e).
Proof.
  intros Hit. unfold find, find_with, run.
  pose proof (pweight_pos fs p) as Hpos.
  change (walk_bound fs [p]) with (pweight fs p + 0)%nat.
  destruct (pweight fs p + 0)%nat as [|fuel] eqn:E; [lia|].
  cbn [find_loop pop_front stack].
  specialize (Hit (State ∅ [] [])).
  destruct (iteration fs doc ignore p _) as [st' r]. simpl in Hit.
  by subst r.
Qed.

End Directories.

(** X6.  A module library is recorded as one unit: the turn that pops it
    records the directory and puts none of its entries on the stack, so a
    walk from it returns the directory alone and the scripts in it are
    never looked at.  (The directory must not be named like a resource
    file.) *)
Theorem module_library_is_one_unit fs doc ignore p :
  should_ignore ignore p = false →
  is_dir fs p = true →
  is_module_library fs doc p = Ok true →
  name p ∈ INIT_FILES ∨ suffix p ∉ EXTENSIONS →
  (∀ s, iteration fs doc ignore p s =
          (State (paths s ∪ {[p]}) (stack s)
             (log s ++ [(DEBUG, "Checking: " +:+ str p)]), Ok tt)) ∧
  find fs doc ignore [p] = Some (Ok [str p]).
Proof.
  intros Hig Hdir Hml Hname.
  assert (Hres : is_resource_file fs p = Ok false).
  { rewrite (is_resource_file_of_dir _ _ Hdir).
    destruct Hname as [Hn|Hs].
    - by rewrite (bool_decide_eq_true_2 _ Hn).
    - rewrite (bool_decide_eq_false_2 _ Hs). by rewrite orb_true_r. }
  assert (Hv : visit fs doc ignore p = Ok ([p], [])).
  { unfold visit. rewrite Hig, Hdir, Hml. simpl.
    rewrite comprehension_const, Hres. by destruct (glob_all fs p). }
  split.
  - intros s. pose proof (iteration_visit fs doc ignore p s) as H.
    rewrite Hv in H. rewrite H. unfold visit_log. rewrite Hig.
    rewrite app_nil_r. f_equal. f_equal. set_solver.
  - by rewrite (find_single fs doc ignore p [p] Hv), sorted_singleton.
Qed.

Lemma module_library_is_one_unit_witness :
  find Examples.fs_library MoreExamples.doc_all [] [["lib"]]
  = Some (Ok ["lib"]).
Proof.
  apply (module_library_is_one_unit Examples.fs_library MoreExamples.doc_all
           [] ["lib"]); try reflexivity.
  right. intros H. apply (bool_decide_pack _) in H. vm_compute in H. exact H.
Defined.

(** X7.  A module library whose directory is named like a resource file
    (a name ending in [.robot], [.resource] or [.txt]) stops the run:
    [find] opens the directory as a text file, and the
    [IsADirectoryError] is not caught. *)
Theorem module_library_named_like_resource fs doc ignore p :
  should_ignore ignore p = false →
  is_dir fs p = true →
  is_module_library fs doc p = Ok true →
  name p ∉ INIT_FILES →
  suffix p ∈ EXTENSIONS →
  (∀ s, (iteration fs doc ignore p s).2 = Raise (IsADirectoryError (str p))) ∧
  find fs doc ignore [p] = Some (Raise (IsADirectoryError (str p))).
Proof.
  intros Hig Hdir Hml Hname Hsuf.
  assert (Hres : is_resource_file fs p = Raise (IsADirectoryError (str p))).
  { rewrite (is_resource_file_of_dir _ _ Hdir).
    by rewrite (bool_decide_eq_false_2 _ Hname),
      (bool_decide_eq_true_2 _ Hsuf). }
  assert (Hv : visit fs doc ignore p = Raise (IsADirectoryError (str p))).
  { unfold visit. rewrite Hig, Hdir, Hml. simpl.
    rewrite comprehension_const, Hres.
    pose proof (module_library_has_entries _ _ _ Hml).
    by destruct (glob_all fs p). }
  assert (Hit : ∀ s, (iteration fs doc ignore p s).2
                     = Raise (IsADirectoryError (str p))).
  { intros s. pose proof (iteration_visit fs doc ignore p s) as H.
    by rewrite Hv in H. }
  split; [done|]. by apply find_single_raises.
Qed.

Lemma module_library_named_like_resource_witness :
  find MoreExamples.fs_package_txt MoreExamples.doc_all [] [["lib.txt"]]
  = Some (Raise (IsADirectoryError "lib.txt")).
Proof.
  apply (module_library_named_like_resource MoreExamples.fs_package_txt
           MoreExamples.doc_all [] ["lib.txt"]); try reflexivity.
  - intros H. apply (bool_decide_pack _) in H. vm_compute in H. exact H.
  - apply (bool_decide_unpack _). vm_compute. exact I.
Defined.

(** X8.  A walk from an empty directory returns the empty list, whatever
    the ignore list and the introspection, which is never asked. *)
Theorem empty_directory_yields_nothing fs doc ignore p :
  resolve fs p = Some (Dir []) →
  find fs doc ignore [p] = Some (Ok []).
Proof.
  intros Hp.
  rewrite (find_single fs doc ignore p []), sorted_empty; [done|].
  unfold visit. destruct (should_ignore ignore p); [done|].
  unfold is_dir, is_module_library, is_file, joinpath, iterdir.
  rewrite resolve_app, Hp. done.
Qed.

Lemma empty_directory_yields_nothing_witness :
  find Examples.fs_empty MoreExamples.doc_all [] [[]] = Some (Ok []).
Proof. by apply empty_directory_yields_nothing. Defined.




(** ** Files *)

(** X10.  A keyword file is told by its extension: a [.py] path is judged
    by introspection alone and is never opened; a [.robot], [.resource]
    or [.txt] path is judged by its text alone and is never introspected;
    any other path is not a keyword file and is neither opened nor
    introspected. *)
Theorem keyword_file_by_extension fs doc p :
  (suffix p = ".py" →
   is_keyword_file fs doc p = is_library_file doc p) ∧
  (suffix p ∈ EXTENSIONS →
   is_keyword_file fs doc p = is_resource_file fs p) ∧
  (suffix p ≠ ".py" → suffix p ∉ EXTENSIONS →
   is_keyword_file fs doc p = Ok false).
Proof.
  unfold is_keyword_file, is_library_file, is_resource_file.
  split; [|split].
  - intros Hpy. rewrite Hpy. simpl.
    rewrite orb_true_r.
    destruct (negb _); [|done]. by destruct (has_keywords doc p) as [[]|].
  - intros Hsuf.
    destruct (String.eqb (suffix p) ".py") eqn:E; [|done].
    apply String.eqb_eq in E. rewrite E in Hsuf.
    unfold EXTENSIONS in Hsuf. set_solver.
  - intros Hpy Hsuf. apply String.eqb_neq in Hpy. rewrite Hpy. simpl.
    rewrite (bool_decide_eq_false_2 _ Hsuf). by rewrite orb_true_r.
Qed.

Lemma keyword_file_by_extension_witness :
  is_keyword_file Examples.fs_empty MoreExamples.doc_all ["gone.py"]
    = Ok true ∧
  is_keyword_file MoreExamples.fs_mixed Examples.doc_broken ["res.robot"]
    = Ok true ∧
  is_keyword_file MoreExamples.fs_mixed MoreExamples.doc_all ["notes.md"]
    = Ok false.
Proof.
  destruct (keyword_file_by_extension Examples.fs_empty MoreExamples.doc_all
              ["gone.py"]) as (H1 & _ & _).
  destruct (keyword_file_by_extension MoreExamples.fs_mixed
              Examples.doc_broken ["res.robot"]) as (_ & H2 & _).
  destruct (keyword_file_by_extension MoreExamples.fs_mixed
              MoreExamples.doc_all ["notes.md"]) as (_ & _ & H3).
  split; [|split].
  - rewrite H1; reflexivity.
  - rewrite H2; [vm_compute; reflexivity|].
    apply (bool_decide_unpack _). vm_compute. exact I.
  - apply H3.
    + intros H. vm_compute in H. discriminate.
    + intros H. apply (bool_decide_pack _) in H. vm_compute in H. exact H.
Defined.

(** X11.  Some files are never returned, whatever they hold and whatever
    the introspection says: a file named [__init__.py], [__init__.robot]
    or [__init__.txt], and a file whose extension is none of [.py],
    [.robot], [.resource] and [.txt]. *)
Theorem files_never_returned fs doc ignore root out p :
  find fs doc ignore root = Some (Ok out) →
  is_dir fs p = false →
  name p = "__init__.py" ∨ name p ∈ INIT_FILES ∨
  (suffix p ≠ ".py" ∧ suffix p ∉ EXTENSIONS) →
  ∃ st, run fs doc ignore pop_front root = Some (st, Ok tt) ∧
        out = str <$> sorted (paths st) ∧ p ∉ paths st.
Proof.
  intros (st & Hrun & ->)%find_inv Hdir Hname. exists st.
  split; [done|]. split; [done|]. intros Hp.
  destruct (run_elem _ _ _ _ _ _ Hrun Hp) as (_ & _ & [c Hc] & _).
  assert (is_keyword_file fs doc p = Ok false) as Hkey.
  { unfold is_keyword_file, is_library_file, is_resource_file, suffix.
    destruct Hname as [Hn|[Hn|[Hpy Hsuf]]].
    - rewrite Hn. done.
    - unfold INIT_FILES in Hn.
      repeat (apply elem_of_cons in Hn as [->|Hn]); try done.
      by apply elem_of_nil in Hn.
    - apply String.eqb_neq in Hpy. unfold suffix in Hpy. rewrite Hpy.
      simpl. unfold suffix in Hsuf.
      rewrite (bool_decide_eq_false_2 _ Hsuf). by rewrite orb_true_r. }
  unfold visit in Hc. destruct (should_ignore ignore p); [done|].
  rewrite Hdir, Hkey in Hc. done.
Qed.

Lemma files_never_returned_witness :
  ∃ st, run MoreExamples.fs_mixed MoreExamples.doc_all [] pop_front [[]]
          = Some (st, Ok tt) ∧
        ["res.robot"; "tool.py"] = str <$> sorted (paths st) ∧
        ["__init__.robot"] ∉ paths st.
Proof.
  apply (files_never_returned MoreExamples.fs_mixed MoreExamples.doc_all []
           [[]] _ ["__init__.robot"]).
  - vm_compute. reflexivity.
  - reflexivity.
  - right. left. apply (bool_decide_unpack _). vm_compute. exact I.
Defined.

(** Whether some line starts with an asterisk can be computed. *)
Lemma no_asterisk_at_line_start data :
  contains data (Chr (N.eqb 0x2A)) = false →
  ∀ before rest, line_start before → data ≠ before ++ 0x2A%N :: rest.
Proof.
  intros Hno before rest Hstart ->.
  assert (contains (before ++ 0x2A%N :: rest) (Chr (N.eqb 0x2A)) = true);
    [|congruence].
  apply contains_spec. exists before, [0x2A%N], rest.
  split; [done|]. split; [done|]. by constructor.
Qed.

(** X12.  A text in which no line starts with an asterisk is not a
    resource file: a section header counts only at the very start of a
    line, so indented headers are not seen. *)
Theorem no_line_with_asterisk fs p data :
  read_text Ignore fs p = Ok data →
  (∀ before rest, line_start before → data ≠ before ++ 0x2A%N :: rest) →
  is_resource_file fs p = Ok false.
Proof.
  intros Hread Hno. unfold is_resource_file. rewrite Hread.
  destruct (_ || _); [done|]. simpl.
  assert (contains data keywords_pattern = false) as ->.
  { destruct (contains data keywords_pattern) eqn:E; [|done].
    apply contains_keywords in E
      as (before & h & after & -> & Hstart &
          stars & spaces & t & title & -> & Hne & Hst & _).
    destruct stars as [|c stars]; [done|].
    apply Forall_cons in Hst as [-> _].
    destruct (Hno before (stars ++ spaces ++ t ++ after) Hstart).
    by rewrite <- !app_assoc. }
  by rewrite andb_false_r.
Qed.

Lemma no_line_with_asterisk_witness :
  is_resource_file MoreExamples.fs_indented ["res.robot"] = Ok false.
Proof.
  apply (no_line_with_asterisk MoreExamples.fs_indented ["res.robot"]
           (codes "  *** Keywords ***
  Say Hello
")).
  - vm_compute. reflexivity.
  - apply no_asterisk_at_line_start. vm_compute. reflexivity.
Defined.

(** ** Ignoring more *)

Section IgnoreMore.

Variable fs : node.
Variable doc : string → result (list string).
Variables ignore ignore' : list Path.
Hypothesis ignore_more : ignore ⊆ ignore'.

Lemma should_ignore_more x :
  should_ignore ignore x = true → should_ignore ignore' x = true.
Proof.
  unfold should_ignore. rewrite !orb_true_iff, !bool_decide_eq_true.
  intros [?|?]; [left|by right]. by apply ignore_more.
Qed.

Lemma visit_ignore_more p :
  should_ignore ignore' p = false →
  visit fs doc ignore' p = visit fs doc ignore p.
Proof.
  intros H'. unfold visit. rewrite H'.
  destruct (should_ignore ignore p) eqn:E; [|done].
  apply should_ignore_more in E. congruence.
Qed.

(** With more paths ignored, a walk that ended normally still does, and
    records no more than before. *)
Lemma reach_ignore_more depth :
  ∀ p recorded,
    reach fs doc ignore depth p = Some recorded →
    ∃ recorded', reach fs doc ignore' depth p = Some recorded' ∧
                 recorded' ⊆ recorded.
Proof.
  induction depth as [|depth IH]; intros p recorded; [done|].
  rewrite !reach_step.
  destruct (should_ignore ignore' p) eqn:E'.
  { rewrite (visit_ignored fs doc ignore' p E'). simpl.
    intros _. exists (list_to_set [] ∪ ∅). split; [done|]. set_solver. }
  rewrite (visit_ignore_more p E').
  destruct (visit fs doc ignore p) as [[rec children]|e]; [|by eauto].
  assert (Hall : ∀ l R,
            reach_all fs doc ignore depth l = Some R →
            ∃ R', reach_all fs doc ignore' depth l = Some R' ∧ R' ⊆ R).
  { induction l as [|c l IHl]; intros R.
    - intros [= <-]. by exists ∅.
    - rewrite !reach_all_cons.
      destruct (reach fs doc ignore depth c) as [R1|] eqn:E1; [|done].
      destruct (reach_all fs doc ignore depth l) as [R2|] eqn:E2;
        [|by rewrite both_None_r].
      rewrite both_Some. intros [= <-].
      destruct (IH c R1 E1) as (R1' & -> & ?).
      destruct (IHl R2 eq_refl) as (R2' & -> & ?).
      exists (R1' ∪ R2'). split; [done|]. set_solver. }
  destruct (reach_all fs doc ignore depth children) as [R|] eqn:HR;
    [|by rewrite both_None_r].
  rewrite both_Some. intros [= <-].
  destruct (Hall children R HR) as (R' & -> & ?).
  exists (list_to_set rec ∪ R'). split; [done|]. set_solver.
Qed.

End IgnoreMore.

(** X13.  Ignoring more paths never adds to the result and never makes a
    run fail: when [find] returns with one ignore list, it returns with
    every longer one, and what it then returns was returned before. *)
Theorem ignoring_more_returns_less fs doc ignore ignore' root out :
  ignore ⊆ ignore' →
  find fs doc ignore root = Some (Ok out) →
  ∃ out', find fs doc ignore' root = Some (Ok out') ∧ out' ⊆ out.
Proof.
  intros Hmore Hfind.
  pose proof (find_with_reach fs doc ignore pop_front root pop_front_fair)
    as H.
  pose proof (find_with_reach fs doc ignore' pop_front root pop_front_fair)
    as H'.
  unfold find in *.
  destruct (reach_all fs doc ignore (walk_bound fs root) root)
    as [R|] eqn:HR; [|destruct H as [e H]; congruence].
  rewrite H in Hfind. injection Hfind as <-.
  assert (∃ R', reach_all fs doc ignore' (walk_bound fs root) root = Some R'
                ∧ R' ⊆ R) as (R' & HR' & Hsub).
  { clear H H'. revert R HR.
    induction root as [|c l IHl]; intros R.
    - intros [= <-]. by exists ∅.
    - rewrite !reach_all_cons, walk_bound_cons.
      set (n := (pweight fs c + walk_bound fs l)%nat).
      destruct (reach fs doc ignore n c) as [R1|] eqn:E1; [|done].
      destruct (reach_all fs doc ignore n l) as [R2|] eqn:E2;
        [|by rewrite both_None_r].
      rewrite both_Some. intros [= <-].
      destruct (reach_ignore_more fs doc ignore ignore' Hmore _ c R1 E1)
        as (R1' & -> & ?).
      pose proof (pweight_pos fs c).
      rewrite (reach_all_stable fs doc ignore n (walk_bound fs l) l) in E2
        by (unfold n; lia).
      destruct (IHl R2 E2) as (R2' & HR2' & ?).
      rewrite (reach_all_stable fs doc ignore' n (walk_bound fs l) l)
        by (unfold n; lia).
      rewrite HR2'. exists (R1' ∪ R2'). split; [done|]. set_solver. }
  rewrite HR' in H'. rewrite H'. eexists. split; [done|].
  intros s (q & -> & Hq%sorted_elem)%list_elem_of_fmap.
  apply list_elem_of_fmap. exists q. split; [done|].
  apply sorted_elem. by apply Hsub.
Qed.

Lemma ignoring_more_returns_less_witness :
  ∃ out', find Examples.fs_order Examples.doc_none [["r"; "a"]] [["r"]]
            = Some (Ok out') ∧
          out' ⊆ ["r/a/b.robot"; "r/a.robot"].
Proof.
  apply (ignoring_more_returns_less Examples.fs_order Examples.doc_none
           [] [["r"; "a"]] [["r"]]).
  - intros x Hx. by apply elem_of_nil in Hx.
  - vm_compute. reflexivity.
Defined.

(** ** Standard output *)

Section Logs.

Variable fs : node.
Variable doc : string → result (list string).
Variable ignore : list Path.

Lemma has_keywords_DataError p msg :
  has_keywords doc p = Raise (DataError msg) →
  doc (str p) = Raise (DataError msg).
Proof.
  unfold has_keywords. destruct (doc (str p)) as [kws|e]; simpl; [done|].
  by intros [= ->].
Qed.

Lemma is_module_library_DataError p msg :
  is_module_library fs doc p = Raise (DataError msg) →
  doc (str p) = Raise (DataError msg).
Proof.
  unfold is_module_library.
  destruct (is_file fs (joinpath p "__init__.py")); [|done].
  apply has_keywords_DataError.
Qed.

Lemma is_keyword_file_DataError p msg :
  is_keyword_file fs doc p = Raise (DataError msg) →
  doc (str p) = Raise (DataError msg).
Proof.
  unfold is_keyword_file, is_library_file.
  pose proof (is_resource_file_not_DataError fs p msg) as Hne.
  destruct (String.eqb (suffix p) ".py"); [|done].
  destruct (negb (String.eqb (name p) "__init__.py")); [|done].
  pose proof (has_keywords_DataError p msg) as Hk.
  destruct (has_keywords doc p) as [[]|e]; simpl; [done|done|].
  intros [= ->]. by apply Hk.
Qed.

(** A [DataError] in a turn of the loop comes from the introspection of
    the candidate. *)
Lemma visit_DataError_from_doc p msg :
  visit fs doc ignore p = Raise (DataError msg) →
  doc (str p) = Raise (DataError msg).
Proof.
  unfold visit. destruct (should_ignore ignore p); [done|].
  destruct (is_dir fs p).
  - pose proof (is_module_library_DataError p msg) as Hml.
    destruct (is_module_library fs doc p) as [[]|e]; simpl.
    + rewrite comprehension_const.
      pose proof (is_resource_file_not_DataError fs p msg) as Hne.
      destruct (glob_all fs p); [done|].
      destruct (is_resource_file fs p) as [[]|e]; simpl; [done|done|].
      intros [= ->]. done.
    + unfold iterdir, lookup_error.
      destruct (resolve fs p) as [[]|]; try done.
      by destruct (through_file fs p).
    + intros [= ->]. by apply Hml.
  - pose proof (is_keyword_file_DataError p msg) as Hk.
    destruct (is_keyword_file fs doc p) as [[]|e]; simpl; [done|done|].
    intros [= ->]. by apply Hk.
Qed.


(** A turn ends with [DataError] only on a candidate that is
    introspected. *)
Lemma visit_DataError_introspected p msg :
  visit fs doc ignore p = Raise (DataError msg) →
  introspected fs ignore p = true.
Proof.
  unfold visit, introspected. destruct (should_ignore ignore p); [done|].
  simpl. destruct (is_dir fs p).
  - unfold is_module_library.
    destruct (is_file fs (joinpath p "__init__.py")); [done|]. simpl.
    unfold iterdir, lookup_error.
    destruct (resolve fs p) as [[]|]; try done.
    by destruct (through_file fs p).
  - unfold is_keyword_file, is_library_file.
    pose proof (is_resource_file_not_DataError fs p msg) as Hne.
    destruct (String.eqb (suffix p) ".py"); simpl.
    + destruct (negb (String.eqb (name p) "__init__.py")); [done|]. simpl.
      destruct (is_resource_file fs p) as [[]|e]; simpl; congruence.
    + destruct (is_resource_file fs p) as [[]|e]; simpl; congruence.
Qed.

(** The turns that log a failure are those on an introspected candidate
    for which the introspection raises [DataError]. *)
Lemma failure_spec p msg :
  failure fs doc ignore p = Some msg ↔
  introspected fs ignore p = true ∧ doc (str p) = Raise (DataError msg).
Proof.
  unfold failure. split.
  - destruct (visit fs doc ignore p) as [[rec children]|e] eqn:Hv; [done|].
    destruct e; try done. intros [= ->].
    split; [by eapply visit_DataError_introspected|].
    by apply visit_DataError_from_doc.
  - intros [Hin Hdoc]. by rewrite (visit_DataError _ _ _ _ _ Hin Hdoc).
Qed.

(** What reaches the log at info level. *)
Lemma turn_records_info order :
  filter (fun r : level * string => Cli.enabled INFO r.1 = true)
    (concat (turn_records fs doc ignore <$> order))
  = (fun msg => (INFO, "Parsing failed: " +:+ msg))
      <$> omap (failure fs doc ignore) order.
Proof.
  induction order as [|p order IH]; [done|].
  cbn [fmap list_fmap concat omap list_omap]. rewrite filter_app, IH.
  unfold turn_records.
  destruct (failure fs doc ignore p) as [msg|]; [done|].
  unfold visit_log. by destruct (should_ignore ignore p).
Qed.

End Logs.

(** ** The candidates a walk pops *)

Lemma both_lists_inv a b V :
  both_lists a b = Some V → ∃ x y, a = Some x ∧ b = Some y ∧ V = x ++ y.
Proof.
  destruct a as [x|], b as [y|]; try done. intros [= <-]. by exists x, y.
Qed.

Lemma both_lists_nil_l a : both_lists (Some []) a = a.
Proof. by destruct a. Qed.

Lemma both_lists_assoc a b c :
  both_lists a (both_lists b c) = both_lists (both_lists a b) c.
Proof.
  destruct a, b, c; try done. unfold both_lists. simpl. by rewrite app_assoc.
Qed.

Section Tours.

Variable fs : node.
Variable doc : string → result (list string).
Variable ignore : list Path.

#[local] Abbreviation visit' := (visit fs doc ignore).
#[local] Abbreviation tour' := (tour fs doc ignore).
#[local] Abbreviation tour_all' := (tour_all fs doc ignore).
#[local] Abbreviation turn_records' := (turn_records fs doc ignore).

Lemma tour_step depth path :
  tour' (S depth) path =
    match visit' path with
    | Ok (_, children) =>
        both_lists (Some [path]) (tour_all' depth children)
    | Raise (DataError _) => Some [path]
    | Raise _ => None
    end.
Proof. done. Qed.

Lemma tour_all_cons depth p l :
  tour_all' depth (p :: l) = both_lists (tour' depth p) (tour_all' depth l).
Proof. done. Qed.

Lemma tour_all_app depth l1 l2 :
  tour_all' depth (l1 ++ l2) =
    both_lists (tour_all' depth l1) (tour_all' depth l2).
Proof.
  induction l1 as [|p l1 IH].
  { change (tour_all' depth []) with (Some (@nil Path)).
    by rewrite both_lists_nil_l. }
  rewrite <- app_comm_cons, !tour_all_cons, IH. apply both_lists_assoc.
Qed.

(** The candidates are the same, each as often, in whatever order the
    walks are started. *)
Lemma tour_all_perm depth l1 l2 :
  l1 ≡ₚ l2 →
  ∀ V, tour_all' depth l1 = Some V →
       ∃ V', tour_all' depth l2 = Some V' ∧ V ≡ₚ V'.
Proof.
  induction 1 as [|x l1 l2 _ IH|x y l|l1 l2 l3 _ IH1 _ IH2]; intros V.
  - intros HV. by exists V.
  - rewrite !tour_all_cons. intros (a & b & Ha & Hb & ->)%both_lists_inv.
    destruct (IH b Hb) as (b' & Hb' & Hperm).
    exists (a ++ b'). rewrite Ha, Hb'. split; [done|]. by rewrite Hperm.
  - rewrite !tour_all_cons.
    intros (a & bc & Ha & (b & c & Hb & Hc & ->)%both_lists_inv & ->)
      %both_lists_inv.
    exists (b ++ a ++ c). rewrite Ha, Hb, Hc. split; [done|].
    rewrite !app_assoc. by rewrite (Permutation_app_comm a b).
  - intros HV. destruct (IH1 V HV) as (V1 & H1 & P1).
    destruct (IH2 V1 H1) as (V2 & H2 & P2).
    exists V2. split; [done|]. by etrans.
Qed.

Lemma tour_stable n :
  ∀ m path, (pweight fs path ≤ n)%nat → (pweight fs path ≤ m)%nat →
            tour' n path = tour' m path.
Proof.
  induction n as [|n IH]; intros m path Hn Hm.
  { pose proof (pweight_pos fs path). lia. }
  destruct m as [|m]; [pose proof (pweight_pos fs path); lia|].
  rewrite !tour_step.
  destruct (visit' path) as [[recorded children]|e] eqn:Hv; [|done].
  apply visit_children_bound in Hv. f_equal.
  assert (Hall : ∀ l, (walk_bound fs l < pweight fs path)%nat →
            tour_all' n l = tour_all' m l).
  { induction l as [|c l IHl]; [done|]. rewrite walk_bound_cons. intros Hl.
    rewrite !tour_all_cons. rewrite IHl by lia. f_equal. apply IH; lia. }
  by apply Hall.
Qed.

Lemma tour_all_stable n m l :
  (walk_bound fs l ≤ n)%nat → (walk_bound fs l ≤ m)%nat →
  tour_all' n l = tour_all' m l.
Proof.
  induction l as [|c l IHl]; [done|]. rewrite walk_bound_cons. intros Hn Hm.
  rewrite !tour_all_cons. rewrite IHl by lia. f_equal.
  apply tour_stable; lia.
Qed.

(** A loop that empties the stack has taken one turn for each candidate
    of the walks from the stack, in some order, and its log is made of
    the records of these turns, one turn after the other. *)
Lemma find_loop_tour pop (Hpop : fair pop) n :
  ∀ fuel st st', (walk_bound fs (stack st) ≤ n)%nat → (n ≤ fuel)%nat →
    find_loop fs doc ignore pop fuel st = Some (st', Ok tt) →
    ∃ order visited,
      tour_all' n (stack st) = Some visited ∧ order ≡ₚ visited ∧
      log st' = log st ++ concat (turn_records' <$> order).
Proof.
  induction n as [|n IH]; intros fuel st st' Hm Hfuel Hloop.
  - assert (stack st = []) as Hnil.
    { destruct (stack st) as [|p l]; [done|].
      rewrite walk_bound_cons in Hm. pose proof (pweight_pos fs p). lia. }
    exists [], []. rewrite Hnil. split; [done|]. split; [done|].
    pose proof (Hpop []) as Hp.
    destruct fuel; simpl in Hloop; rewrite Hnil in Hloop;
      destruct (pop []) as [[p rest]|]; try done;
      try (by apply Permutation_nil_cons in Hp);
      injection Hloop as <-; simpl; by rewrite app_nil_r.
  - pose proof (Hpop (stack st)) as Hp.
    destruct (pop (stack st)) as [[p rest]|] eqn:Epop.
    2:{ exists [], []. rewrite Hp. split; [done|]. split; [done|].
        destruct fuel; simpl in Hloop; rewrite Epop in Hloop;
          injection Hloop as <-; simpl; by rewrite app_nil_r. }
    rewrite (walk_bound_perm _ _ _ Hp), walk_bound_cons in Hm.
    pose proof (pweight_pos fs p) as Hpos.
    destruct fuel as [|fuel]; [lia|].
    cbn [find_loop] in Hloop. rewrite Epop in Hloop.
    pose proof (iteration_visit fs doc ignore p
                  (State (paths st) rest (log st))) as Hit.
    assert (Hback : ∀ V, tour_all' (S n) (p :: rest) = Some V →
              ∃ V', tour_all' (S n) (stack st) = Some V' ∧ V ≡ₚ V').
    { apply tour_all_perm. by symmetry. }
    rewrite tour_all_cons, tour_step in Hback.
    rewrite (tour_all_stable (S n) n rest) in Hback by lia.
    unfold turn_records, failure.
    destruct (visit' p) as [[recorded children]|e] eqn:Hv.
    + rewrite Hit in Hloop.
      pose proof (visit_children_bound _ _ _ _ _ _ Hv) as Hkids.
      destruct (IH fuel (State (paths st ∪ list_to_set recorded)
                           (rest ++ children)
                           (log st ++ visit_log ignore p)) st')
        as (order & V & HV & Hperm & Hlog);
        [simpl; rewrite walk_bound_app; lia|lia|done|].
      simpl in HV, Hlog. rewrite tour_all_app in HV.
      apply both_lists_inv in HV as (Vr & Vk & HVr & HVk & ->).
      rewrite HVr, HVk in Hback.
      destruct (Hback _ eq_refl) as (V' & HV' & HP').
      exists (p :: order), V'. split; [done|]. split.
      { rewrite <- HP', Hperm. simpl. constructor. apply Permutation_app_comm. }
      rewrite Hlog. cbn [fmap list_fmap concat].
      unfold turn_records at 1, failure. rewrite Hv. by rewrite <- app_assoc.
    + destruct e;
        try (destruct (iteration fs doc ignore p _) as [st1 r1];
             simpl in Hit; subst r1; done).
      rewrite Hit in Hloop.
      destruct (IH fuel (State (paths st) rest
                           (log st ++ [(DEBUG, "Checking: " +:+ str p);
                                       (INFO, "Parsing failed: " +:+ msg)]))
                  st')
        as (order & V & HV & Hperm & Hlog); [simpl; lia|lia|done|].
      simpl in HV, Hlog. rewrite HV in Hback.
      destruct (Hback _ eq_refl) as (V' & HV' & HP').
      exists (p :: order), V'. split; [done|]. split.
      { rewrite <- HP', Hperm. done. }
      rewrite Hlog. cbn [fmap list_fmap concat].
      unfold turn_records at 1, failure. rewrite Hv. by rewrite <- app_assoc.
Qed.

Lemma run_tour pop root st :
  fair pop →
  run fs doc ignore pop root = Some (st, Ok tt) →
  ∃ order visited,
    tour_all' (walk_bound fs root) root = Some visited ∧ order ≡ₚ visited ∧
    log st = concat (turn_records' <$> order).
Proof.
  intros Hpop Hrun.
  by apply (find_loop_tour pop Hpop (walk_bound fs root)) in Hrun.
Qed.

End Tours.

(** X14.  Without [--verbose] and without [--output], a run that ends
    normally prints one line for each turn of the loop that caught a
    [DataError], with its message, and then the serialized result.  The
    turns are those on the candidates of the walk, each taken once for
    each time the candidate is popped; the ones that catch a [DataError]
    are those on an introspected candidate for which the introspection
    raises it.  When no introspection fails, the result is all that is
    printed. *)
Theorem standard_output_without_verbose fs doc dumps format a evs :
  Cli.args_verbose a = false →
  Cli.args_output a = None →
  Cli.main fs doc dumps format a = Some (evs, None) →
  ∃ order visited libraries,
    find fs doc (Cli.args_ignore a) (Cli.args_paths a)
      = Some (Ok libraries) ∧
    tour_all fs doc (Cli.args_ignore a)
      (walk_bound fs (Cli.args_paths a)) (Cli.args_paths a) = Some visited ∧
    order ≡ₚ visited ∧
    evs = ((fun msg => Cli.Stdout (format INFO ("Parsing failed: " +:+ msg)))
             <$> omap (failure fs doc (Cli.args_ignore a)) order)
          ++ [Cli.Stdout (dumps libraries)] ∧
    (∀ p msg, failure fs doc (Cli.args_ignore a) p = Some msg ↔
              introspected fs (Cli.args_ignore a) p = true ∧
              doc (str p) = Raise (DataError msg)) ∧
    ((∀ target msg, doc target ≠ Raise (DataError msg)) →
     evs = [Cli.Stdout (dumps libraries)]).
Proof.
  intros Hverbose Houtput. unfold Cli.main. rewrite Hverbose, Houtput.
  destruct (run fs doc (Cli.args_ignore a) pop_front (Cli.args_paths a))
    as [[st [[]|e]]|] eqn:Hrun; [|done|done].
  intros [= <-].
  destruct (run_tour fs doc (Cli.args_ignore a) pop_front _ _ pop_front_fair
              Hrun) as (order & visited & Hvisited & Hperm & Hlog).
  exists order, visited, (str <$> sorted (paths st)).
  split; [by apply find_of_run|]. split; [done|]. split; [done|].
  assert (Cli.emitted format INFO (log st) =
          (fun msg => Cli.Stdout (format INFO ("Parsing failed: " +:+ msg)))
            <$> omap (failure fs doc (Cli.args_ignore a)) order) as Hem.
  { unfold Cli.emitted. rewrite Hlog, turn_records_info.
    by rewrite <- list_fmap_compose. }
  rewrite Hem. split; [done|]. split; [apply failure_spec|].
  intros Hnever.
  assert (omap (failure fs doc (Cli.args_ignore a)) order = []) as ->; [|done].
  clear - Hnever. induction order as [|p order IH]; [done|].
  cbn [omap list_omap].
  destruct (failure fs doc (Cli.args_ignore a) p) as [msg|] eqn:E; [|done].
  apply failure_spec in E as [_ E]. by destruct (Hnever (str p) msg).
Qed.

Lemma standard_output_without_verbose_witness :
  ∃ order visited libraries,
    find MoreExamples.fs_scripts MoreExamples.doc_scripts [] [[]]
      = Some (Ok libraries) ∧
    tour_all MoreExamples.fs_scripts MoreExamples.doc_scripts []
      (walk_bound MoreExamples.fs_scripts [[]]) [[]] = Some visited ∧
    order ≡ₚ visited ∧
    [Cli.Stdout "INFO Parsing failed: no one.py";
     Cli.Stdout "INFO Parsing failed: no three.py";
     Cli.Stdout "INFO Parsing failed: no pkg/two.py";
     Cli.Stdout ""]
    = ((fun msg => Cli.Stdout ("INFO " +:+ "Parsing failed: " +:+ msg))
         <$> omap (failure MoreExamples.fs_scripts MoreExamples.doc_scripts [])
               order)
      ++ [Cli.Stdout (String.concat "," libraries)].
Proof.
  destruct (standard_output_without_verbose MoreExamples.fs_scripts
              MoreExamples.doc_scripts (String.concat ",")
              (fun lvl msg => match lvl with
                              | DEBUG => "DEBUG " +:+ msg
                              | INFO => "INFO " +:+ msg
                              end)
              (Cli.Args [[]] None [] false)
              [Cli.Stdout "INFO Parsing failed: no one.py";
               Cli.Stdout "INFO Parsing failed: no three.py";
               Cli.Stdout "INFO Parsing failed: no pkg/two.py";
               Cli.Stdout ""])
    as (order & visited & libraries & Hfind & Hvisited & Hperm & Hevs & _).
  - reflexivity.
  - reflexivity.
  - vm_compute. reflexivity.
  - exists order, visited, libraries. auto.
Defined.

(** ** The order of the walk *)

(** C9 (as amended).  Popping from the front and popping from the back:
    both walks end; one returns a sequence exactly when the other returns
    the same sequence; one ends with an exception exactly when the other
    does, though not always with the same exception; and when both
    return, they have recorded the same paths and taken the same turns
    in another order, so that the two logs hold the same records, those
    of each turn kept together. *)
Theorem fifo_and_stack_agree fs doc ignore root :
  (∃ r, find fs doc ignore root = Some r) ∧
  (∃ r, find_depth_first fs doc ignore root = Some r) ∧
  (∀ out, find fs doc ignore root = Some (Ok out) ↔
          find_depth_first fs doc ignore root = Some (Ok out)) ∧
  ((∃ e, find fs doc ignore root = Some (Raise e)) ↔
   (∃ e, find_depth_first fs doc ignore root = Some (Raise e))) ∧
  (∀ st1 st2,
     run fs doc ignore pop_front root = Some (st1, Ok tt) →
     run fs doc ignore pop_back root = Some (st2, Ok tt) →
     paths st1 = paths st2 ∧
     log st1 ≡ₚ log st2 ∧
     ∃ order1 order2,
       order1 ≡ₚ order2 ∧
       log st1 = concat (turn_records fs doc ignore <$> order1) ∧
       log st2 = concat (turn_records fs doc ignore <$> order2)).
Proof.
  pose proof (find_with_reach fs doc ignore pop_front root pop_front_fair)
    as Hf.
  pose proof (find_with_reach fs doc ignore pop_back root pop_back_fair)
    as Hb.
  assert (Hlogs : ∀ st1 st2,
     run fs doc ignore pop_front root = Some (st1, Ok tt) →
     run fs doc ignore pop_back root = Some (st2, Ok tt) →
     paths st1 = paths st2 ∧
     log st1 ≡ₚ log st2 ∧
     ∃ order1 order2,
       order1 ≡ₚ order2 ∧
       log st1 = concat (turn_records fs doc ignore <$> order1) ∧
       log st2 = concat (turn_records fs doc ignore <$> order2)).
  { intros st1 st2 H1 H2.
    destruct (run_reach fs doc ignore pop_front root pop_front_fair)
      as (s1 & r1 & Hr1 & Hres1).
    destruct (run_reach fs doc ignore pop_back root pop_back_fair)
      as (s2 & r2 & Hr2 & Hres2).
    rewrite H1 in Hr1. injection Hr1 as <- <-.
    rewrite H2 in Hr2. injection Hr2 as <- <-.
    destruct (reach_all fs doc ignore (walk_bound fs root) root) as [S|];
      [|by destruct Hres1].
    destruct Hres1 as [_ ->], Hres2 as [_ ->]. split; [done|].
    destruct (run_tour fs doc ignore pop_front root st1 pop_front_fair H1)
      as (order1 & V1 & HV1 & HP1 & Hlog1).
    destruct (run_tour fs doc ignore pop_back root st2 pop_back_fair H2)
      as (order2 & V2 & HV2 & HP2 & Hlog2).
    rewrite HV1 in HV2. injection HV2 as <-.
    assert (order1 ≡ₚ order2) as Hperm by (by rewrite HP1, HP2).
    split; [by rewrite Hlog1, Hlog2, Hperm|].
    by exists order1, order2. }
  unfold find, find_depth_first.
  destruct (reach_all fs doc ignore (walk_bound fs root) root) as [S|].
  - rewrite Hf, Hb. repeat split; eauto; try by intros [e ?].
    all: by destruct (Hlogs st1 st2) as (? & ? & ?).
  - destruct Hf as [e1 ->], Hb as [e2 ->].
    repeat split; eauto; try done.
    all: by destruct (Hlogs st1 st2) as (? & ? & ?).
Qed.

(** C9: a run where the two ways to pop are told apart from outside: with
    a package named like a text file and a missing resource file as
    roots, the walk from the front stops at the first with
    [IsADirectoryError], the walk from the back at the second with
    [FileNotFoundError]. *)
Lemma fifo_and_stack_raise_differently :
  find MoreExamples.fs_package_txt MoreExamples.doc_all []
    [["lib.txt"]; ["gone.robot"]]
    = Some (Raise (IsADirectoryError "lib.txt")) ∧
  find_depth_first MoreExamples.fs_package_txt MoreExamples.doc_all []
    [["lib.txt"]; ["gone.robot"]]
    = Some (Raise (FileNotFoundError "gone.robot")).
Proof. split; vm_compute; reflexivity. Qed.

Lemma fifo_and_stack_agree_witness :
  find Examples.fs_order Examples.doc_none [] [["r"]]
    = Some (Ok ["r/a/b.robot"; "r/a.robot"]) ∧
  find_depth_first Examples.fs_order Examples.doc_none [] [["r"]]
    = Some (Ok ["r/a/b.robot"; "r/a.robot"]) ∧
  ∃ st1 st2,
    run Examples.fs_order Examples.doc_none [] pop_front [["r"]]
      = Some (st1, Ok tt) ∧
    run Examples.fs_order Examples.doc_none [] pop_back [["r"]]
      = Some (st2, Ok tt) ∧
    log st1 ≡ₚ log st2 ∧ log st1 ≠ log st2.
Proof.
  destruct (fifo_and_stack_agree Examples.fs_order Examples.doc_none []
              [["r"]]) as (_ & _ & Hsame & _ & Hlogs).
  assert (find Examples.fs_order Examples.doc_none [] [["r"]]
          = Some (Ok ["r/a/b.robot"; "r/a.robot"])) as Hf
    by (vm_compute; reflexivity).
  split; [done|]. split; [by apply Hsame|].
  assert (∃ st1, run Examples.fs_order Examples.doc_none [] pop_front [["r"]]
                 = Some (st1, Ok tt)) as [st1 H1]
    by (eexists; vm_compute; reflexivity).
  assert (∃ st2, run Examples.fs_order Examples.doc_none [] pop_back [["r"]]
                 = Some (st2, Ok tt)) as [st2 H2]
    by (eexists; vm_compute; reflexivity).
  exists st1, st2. split; [done|]. split; [done|].
  destruct (Hlogs st1 st2 H1 H2) as (_ & Hperm & _).
  split; [done|].
  vm_compute in H1. injection H1 as <-.
  vm_compute in H2. injection H2 as <-.
  simpl. discriminate.
Defined.

(** ** A directory whose introspection fails *)

(** C10 (as amended).  A directory that is not ignored: if the check for
    a module library raises [DataError], the turn puts none of its
    entries on the stack and records nothing, and no run records the
    directory or anything beneath it, provided no root itself lies
    beneath it; if the check answers no, the turn puts every entry of
    the directory on the stack. *)
Theorem data_error_directory_not_expanded fs doc ignore p es :
  should_ignore ignore p = false →
  resolve fs p = Some (Dir es) →
  (∀ msg, is_module_library fs doc p = Raise (DataError msg) →
     (∀ s, iteration fs doc ignore p s =
             (State (paths s) (stack s)
                (log s ++ [(DEBUG, "Checking: " +:+ str p);
                           (INFO, "Parsing failed: " +:+ msg)]), Ok tt)) ∧
     (∀ root out,
        find fs doc ignore root = Some (Ok out) →
        ∃ st, run fs doc ignore pop_front root = Some (st, Ok tt) ∧
              out = str <$> sorted (paths st) ∧
              ((∀ r, r ∈ root → ¬ strictly_beneath p r) →
               ∀ q, beneath p q →
                    (q ∉ paths st) ∧
                    (valid_tree fs = true →
                     Forall (fun r => valid_path r = true) root →
                     valid_path q = true → str q ∉ out)))) ∧
  (is_module_library fs doc p = Ok false →
     ∀ s, iteration fs doc ignore p s =
            (State (paths s) (stack s ++ (joinpath p <$> es.*1))
               (log s ++ [(DEBUG, "Checking: " +:+ str p)]), Ok tt)).
Proof.
  intros Hig Hp.
  assert (Hdir : is_dir fs p = true) by (unfold is_dir; by rewrite Hp).
  split.
  - intros msg Hml.
    assert (Hv : visit fs doc ignore p = Raise (DataError msg)).
    { unfold visit. by rewrite Hig, Hdir, Hml. }
    split.
    { intros s. pose proof (iteration_visit fs doc ignore p s) as H.
      by rewrite Hv in H. }
    intros root out (st & Hrun & ->)%find_inv.
    exists st. split; [done|]. split; [done|]. intros Hroot q Hpq.
    assert (q ∉ paths st) as Hq.
    { intros Hq.
      destruct (run_reach fs doc ignore pop_front root pop_front_fair)
        as (st' & res & Hrun' & Hres).
      rewrite Hrun in Hrun'. injection Hrun' as <- <-.
      destruct (reach_all fs doc ignore _ root) as [recorded|] eqn:HR;
        [|by destruct Hres].
      destruct Hres as [_ Hst]. rewrite Hst in Hq.
      destruct (reach_all_elem _ _ _ _ _ _ _ HR Hq)
        as (r & found & Hr & Hf & Hqf).
      destruct (reach_elem _ _ _ _ _ _ _ Hf Hqf) as ([c Hc] & Hrq & _).
      destruct (beneath_comparable _ _ _ Hrq Hpq) as [Hrp|Hpr];
        [|by apply (Hroot r)].
      destruct Hpq as [rest ->]. destruct rest as [|n rest].
      - rewrite app_nil_r in Hc. congruence.
      - assert (expanded fs doc ignore p) as (_ & _ & Hfalse).
        { eapply reach_trail; [exact Hf|exact Hqf|done|].
          by exists (n :: rest). }
        congruence. }
    split; [done|]. intros Hfs Hvr Hvq. by eapply str_not_recorded.
  - intros Hml s.
    pose proof (iteration_visit fs doc ignore p s) as H.
    assert (Hv : visit fs doc ignore p = Ok ([], joinpath p <$> es.*1)).
    { unfold visit, iterdir. by rewrite Hig, Hdir, Hml, Hp. }
    rewrite Hv in H. rewrite H. unfold visit_log. rewrite Hig.
    f_equal. f_equal. set_solver.
Qed.

(** C10: a run where a file beneath a directory whose introspection
    raised [DataError] is in the result, because the file was given as a
    root. *)
Lemma root_beneath_failed_directory :
  is_module_library Examples.fs_library Examples.doc_broken ["lib"]
    = Raise (DataError "Importing failed") ∧
  strictly_beneath ["lib"] ["lib"; "res.robot"] ∧
  find Examples.fs_library Examples.doc_broken []
    [["lib"]; ["lib"; "res.robot"]] = Some (Ok ["lib/res.robot"]).
Proof.
  split; [reflexivity|]. split; [by exists ["res.robot"]|].
  vm_compute. reflexivity.
Qed.

Lemma data_error_directory_not_expanded_witness :
  (∃ st, run Examples.fs_library Examples.doc_broken [] pop_front [[]]
           = Some (st, Ok tt) ∧
         [] = str <$> sorted (paths st) ∧
         ["lib"; "res.robot"] ∉ paths st) ∧
  ∀ s, iteration Examples.fs_library Examples.doc_none [] ["lib"] s =
         (State (paths s)
            (stack s ++ [["lib"; "__init__.py"]; ["lib"; "res.robot"]])
            (log s ++ [(DEBUG, "Checking: lib")]), Ok tt).
Proof.
  destruct (data_error_directory_not_expanded Examples.fs_library
              Examples.doc_broken [] ["lib"] _ eq_refl eq_refl) as [H1 _].
  destruct (data_error_directory_not_expanded Examples.fs_library
              Examples.doc_none [] ["lib"] _ eq_refl eq_refl) as [_ H2].
  split.
  - destruct (H1 "Importing failed" eq_refl) as [_ H].
    destruct (H [[]] []) as (st & Hrun & Hout & Hbeneath).
    { vm_compute. reflexivity. }
    exists st. split; [done|]. split; [done|].
    apply Hbeneath.
    + intros r Hr (rest & Hne & Heq).
      apply list_elem_of_singleton in Hr as ->. done.
    + by exists ["res.robot"].
  - exact (H2 eq_refl).
Defined.
